(** * Income dashboard: aggregation, quantiles and scales

    A shallow embedding of the data pipeline of the dashboard
    (App.jsx and its first revision): the record model, the grouping
    and rate computations of the charts, the box-plot statistics, the
    KPI card values and the linear scales that place the shapes.

    JavaScript numbers are modelled by [number]: either the marker
    [NaN] or a finite value, held as a canonical rational [Qc] so that
    equal values are equal terms.  Rounding of doubles and the two
    infinities are outside this model; the numeric columns of the
    census table are integers.  [undefined] results are [None].

    The charts call the d3 library.  The code uses d3.group, d3.rollup
    and event handlers of the form [(event, d) => ...], which exist from
    d3 6 on; the functions are embedded in [Module d3] as d3 6 and 7
    define them (d3-array, d3-scale, d3-interpolate), each next to the
    JavaScript it stands for. *)

From Stdlib Require Import String.
From Stdlib Require Import ZArith QArith Qcanon Qround Lqa Lia.
From Stdlib Require Import List Permutation Sorted Bool Arith.
Import ListNotations.

Open Scope Qc_scope.

(** ** Numbers *)

Inductive number : Type :=
| NaN : number
| Num : Qc -> number.

Definition qc_leb (a b : Qc) : bool := Qle_bool a b.
Definition qc_ltb (a b : Qc) : bool := negb (Qle_bool b a).
Definition qc_eqb (a b : Qc) : bool := Qeq_bool a b.

Definition ofZ (z : Z) : Qc := Q2Qc (inject_Z z).
Definition ofnat (n : nat) : Qc := ofZ (Z.of_nat n).

(** Arithmetic propagates [NaN]. *)
Definition num_add (a b : number) : number :=
  match a, b with Num x, Num y => Num (x + y) | _, _ => NaN end.
Definition num_sub (a b : number) : number :=
  match a, b with Num x, Num y => Num (x - y) | _, _ => NaN end.
Definition num_mul (a b : number) : number :=
  match a, b with Num x, Num y => Num (x * y) | _, _ => NaN end.

(** Every comparison with [NaN] is false. *)
Definition num_lt (a b : number) : bool :=
  match a, b with Num x, Num y => qc_ltb x y | _, _ => false end.
Definition num_gt (a b : number) : bool := num_lt b a.
Definition num_ge (a b : number) : bool :=
  match a, b with Num x, Num y => qc_leb y x | _, _ => false end.

Definition isNaN (a : number) : bool :=
  match a with NaN => true | Num _ => false end.

(** [undefined] in arithmetic position converts to [NaN]. *)
Definition to_number (v : option number) : number :=
  match v with Some a => a | None => NaN end.

(** [m / n] for two array lengths.  In each use [m] counts a part of
    the [n] elements, so a zero divisor comes with a zero dividend,
    and [0 / 0] is [NaN]. *)
Definition length_ratio (m n : nat) : number :=
  match n with
  | O => NaN
  | S _ => Num (ofnat m / ofnat n)
  end.

(** [Math.floor] on a finite value that is used as an index. *)
Definition floor (x : Qc) : Z := Qfloor x.
Definition ceil (x : Qc) : Z := Qceiling x.

(** ** Arrays *)

(** [Array.prototype.sort(compareFn)].  The comparator returns a number;
    a [NaN] result counts as [0].  The sort is stable, so for a
    consistent comparator the result is the one of any stable sort, here
    insertion.  Where the comparator is not consistent ([NaN] among the
    keys) the language leaves the order to the engine; what is proved
    about such arrays holds for every order. *)
Section Sort.
Context {A : Type} (compareFn : A -> A -> number).

Definition before (x y : A) : bool :=
  match compareFn x y with
  | NaN => true
  | Num v => qc_leb v 0
  end.

Fixpoint insert (x : A) (l : list A) : list A :=
  match l with
  | [] => [x]
  | y :: l' => if before x y then x :: y :: l' else y :: insert x l'
  end.

Definition js_sort (l : list A) : list A := fold_right insert [] l.
End Sort.

(** ** The d3 functions the charts call *)

Module d3.

(** d3.ascending:
    a == null || b == null ? NaN : a < b ? -1 : a > b ? 1 : a >= b ? 0 : NaN *)
Definition ascending (a b : number) : number :=
  if num_lt a b then Num (ofZ (-1))
  else if num_gt a b then Num (ofZ 1)
  else if num_ge a b then Num (ofZ 0)
  else NaN.

(** numbers(values): yields each value with [value >= value]. *)
Definition numbers (values : list number) : list number :=
  filter (fun v => num_ge v v) values.

(** d3.min: let min; for (value of values)
      if (min > value || (min === undefined && value >= value)) min = value; *)
Definition min_step (acc : option number) (value : number) : option number :=
  match acc with
  | Some m => if num_gt m value then Some value else acc
  | None => if num_ge value value then Some value else None
  end.
Definition min (values : list number) : option number :=
  fold_left min_step values None.

(** d3.max, the same loop with [max < value]. *)
Definition max_step (acc : option number) (value : number) : option number :=
  match acc with
  | Some m => if num_lt m value then Some value else acc
  | None => if num_ge value value then Some value else None
  end.
Definition max (values : list number) : option number :=
  fold_left max_step values None.

(** quickselect(array, k) rearranges the array so that position [k]
    holds the element a full sort would put there, nothing larger
    before it and nothing smaller after it.  The sorted array is such
    an arrangement, and what d3.quantile reads off the result is the
    same for each of them (quickselect_any_partition below). *)
Definition quickselect (array : list number) (k : nat) : list number :=
  js_sort ascending array.

(** d3.quantile(values, p):
      values = Float64Array.from(numbers(values));
      if (!(n = values.length)) return;
      if ((p = +p) <= 0 || n < 2) return min(values);
      if (p >= 1) return max(values);
      i = (n - 1) * p, i0 = Math.floor(i),
      value0 = max(quickselect(values, i0).subarray(0, i0 + 1)),
      value1 = min(values.subarray(i0 + 1));
      return value0 + (value1 - value0) * (i - i0); *)
Definition quantile (values : list number) (p : Qc) : option number :=
  let values := numbers values in
  let n := length values in
  if Nat.eqb n 0 then None
  else if qc_leb p 0 || Nat.ltb n 2 then min values
  else if qc_leb 1 p then max values
  else
    let i := ofnat (n - 1) * p in
    let i0 := Z.to_nat (floor i) in
    let values := quickselect values i0 in
    let value0 := to_number (max (firstn (i0 + 1) values)) in
    let value1 := to_number (min (skipn (i0 + 1) values)) in
    Some (num_add value0
            (num_mul (num_sub value1 value0) (Num (i - ofnat i0)))).

(** d3.median(values, valueof) = quantile(values, 0.5, valueof). *)
Definition median (values : list number) : option number :=
  quantile values (Q2Qc (1 # 2)).

(** d3.group(values, keyof): an insertion-ordered Map from key to the
    array of the values with that key:
      for (const value of values) {
        const key = keyof(value), group = groups.get(key);
        if (group) group.push(value); else groups.set(key, [value]); }
    The Map is held as the list of its entries in iteration order. *)
Section Group.
Context {A : Type}.

Fixpoint push (key : string) (value : A) (groups : list (string * list A))
  : list (string * list A) :=
  match groups with
  | [] => [(key, [value])]
  | (k, group) :: rest =>
      if String.eqb k key then (k, group ++ [value]) :: rest
      else (k, group) :: push key value rest
  end.

Definition group (values : list A) (keyof : A -> string)
  : list (string * list A) :=
  fold_left (fun groups value => push (keyof value) value groups) values [].

(** d3.rollup(values, reduce, keyof): the same groups, each replaced
    by [reduce(group)]. *)
Definition rollup {B : Type} (values : list A) (reduce : list A -> B)
  (keyof : A -> string) : list (string * B) :=
  map (fun '(key, values) => (key, reduce values)) (group values keyof).
End Group.

(** d3.scaleLinear().domain([d0, d1]).range([r0, r1]).

    normalize(a, b):
      (b -= (a = +a)) ? x => (x - a) / b : constant(isNaN(b) ? NaN : 0.5)
    interpolateNumber(a, b): t => a * (1 - t) + b * t
    bimap(domain, range):
      if (d1 < d0) d0 = normalize(d1, d0), r0 = interpolate(r1, r0);
      else d0 = normalize(d0, d1), r0 = interpolate(r0, r1);
      return x => r0(d0(x));
    scale(x): x == null || isNaN(x = +x) ? undefined : output(clamp(x))
    where clamp is the identity unless .clamp(true) is called. *)
Definition constant (x : number) : number -> number := fun _ => x.

Definition normalize (a b : number) : number -> number :=
  match num_sub b a with
  | NaN => constant NaN
  | Num b' =>
      if qc_eqb b' 0 then constant (Num (Q2Qc (1 # 2)))
      else fun x =>
             match num_sub x a with
             | Num y => Num (y / b')
             | NaN => NaN
             end
  end.

Definition interpolateNumber (a b : number) : number -> number :=
  fun t => num_add (num_mul a (num_sub (Num 1) t)) (num_mul b t).

Definition bimap (domain range : number * number) : number -> number :=
  let '(d0, d1) := domain in
  let '(r0, r1) := range in
  if num_lt d1 d0
  then fun x => interpolateNumber r1 r0 (normalize d1 d0 x)
  else fun x => interpolateNumber r0 r1 (normalize d0 d1 x).

Definition scaleLinear (domain range : number * number)
  (x : option number) : option number :=
  match x with
  | None => None
  | Some x => if isNaN x then None else Some (bimap domain range x)
  end.

End d3.

(** ** The record model

    One row of the census table after the cleaning pass of [App]:
    numeric columns went through unary [+] (a non-numeric cell is
    [NaN]), categorical columns are trimmed strings. *)

Record Row : Type := {
  age : number;
  hours_per_week : number;
  education_num : number;
  capital_gain : number;
  capital_loss : number;
  income : string;
  education : string;
  occupation : string;
  sex : string;
  marital_status : string
}.

(** An entry [{ key, value }] built by [Array.from(map, ([key, value]) => ...)]. *)
Record Entry (V : Type) : Type := { key : string; value : V }.
Arguments key {V} _.
Arguments value {V} _.
Arguments Build_Entry {V} _ _.

Definition entries {V : Type} (m : list (string * V)) : list (Entry V) :=
  map (fun '(key, value) => Build_Entry key value) m.

(** [d => d.income === '>50K'] *)
Definition isHighIncome (d : Row) : bool := String.eqb (income d) ">50K".

(** ** Aggregation *)

(** The counting pattern of the pie chart,
    [Array.from(d3.rollup(records, v => v.length, keyOf), ([key, value]) => ({ key, value }))]. *)
Definition countBy (records : list Row) (keyOf : Row -> string)
  : list (Entry nat) :=
  entries (d3.rollup records (@length Row) keyOf).

(** The rate pattern of the bar charts,
    [Array.from(d3.group(records, keyOf), ([key, values]) =>
       ({ key, rate: values.filter(match).length / values.length, total: values.length }))]. *)
Record Rate : Type := { name : string; rate : number; total : nat }.

Definition matched (matchPredicate : Row -> bool) (values : list Row) : nat :=
  length (filter matchPredicate values).

Definition rateBy (records : list Row) (keyOf : Row -> string)
  (matchPredicate : Row -> bool) : list Rate :=
  map (fun '(key, values) =>
         {| name := key;
            rate := length_ratio (matched matchPredicate values) (length values);
            total := length values |})
      (d3.group records keyOf).

(** Comparators handed to [sort]. *)
Definition byRateDescending (a b : Rate) : number := num_sub (rate b) (rate a).
Definition byRateAscending (a b : Rate) : number := num_sub (rate a) (rate b).

(** The box-plot reducer shared by the age, hours and capital-gain charts:
      q1: d3.quantile(d.map(g => g.f).sort(d3.ascending), .25), median, q3 alike,
      min: d3.min(d, g => g.f), max: d3.max(d, g => g.f). *)
Record Summary : Type := {
  q1 : option number;
  median : option number;
  q3 : option number;
  min : option number;
  max : option number
}.

Definition sumstat (f : Row -> number) (d : list Row) : Summary :=
  {| q1 := d3.quantile (js_sort d3.ascending (map f d)) (Q2Qc (1 # 4));
     median := d3.quantile (js_sort d3.ascending (map f d)) (Q2Qc (1 # 2));
     q3 := d3.quantile (js_sort d3.ascending (map f d)) (Q2Qc (3 # 4));
     min := d3.min (map f d);
     max := d3.max (map f d) |}.

(** ** The components *)

Module App.
(** The KPI block of the loader callback. *)
Record Kpi : Type := {
  total : nat;
  highIncomePercent : number;
  medianAge : option number
}.

Definition kpi (loadedData : list Row) : Kpi :=
  let total := length loadedData in
  let highIncomeCount := length (filter isHighIncome loadedData) in
  let medianAge := d3.median (map age loadedData) in
  {| total := total;
     highIncomePercent :=
       num_mul (length_ratio highIncomeCount total) (Num (ofZ 100));
     medianAge := medianAge |}.
End App.

Module IncomeDistributionChart.
Definition incomeData (data : list Row) : list (Entry nat) :=
  countBy data income.
End IncomeDistributionChart.

Module EducationChart.
(** [d => d.education] *)
Definition keyOf (d : Row) : string := education d.

Record EducationRate : Type := {
  education : string;
  rate : number;
  total : nat;
  educationNum : number
}.

(** [values[0]['education.num']]; a group always holds a row. *)
Definition firstEducationNum (values : list Row) : number :=
  match values with
  | d :: _ => education_num d
  | [] => NaN
  end.

Definition byEducationNum (a b : EducationRate) : number :=
  num_sub (educationNum a) (educationNum b).

Definition unsorted (data : list Row) : list EducationRate :=
  map (fun '(education, values) =>
         {| education := education;
            rate := length_ratio (matched isHighIncome values) (length values);
            total := length values;
            educationNum := firstEducationNum values |})
      (d3.group data keyOf).

Definition educationRates (data : list Row) : list EducationRate :=
  js_sort byEducationNum (unsorted data).

(** First revision: height = 400 - 20 - 120, domain [0, max rate]. *)
Definition height : number := Num (ofZ 260).
Definition y (data : list Row) : option number -> option number :=
  d3.scaleLinear
    (Num (ofZ 0), to_number (d3.max (map rate (educationRates data))))
    (height, Num (ofZ 0)).
End EducationChart.

Module SexChart.
Definition sexRates (data : list Row) : list Rate :=
  js_sort byRateDescending (rateBy data sex isHighIncome).
End SexChart.

Module MaritalStatusChart.
Definition maritalRates (data : list Row) : list Rate :=
  js_sort byRateAscending (rateBy data marital_status isHighIncome).
End MaritalStatusChart.

Module OccupationChart.
(** [data.filter(d => d.occupation && d.occupation !== '?')] *)
Definition occupationData (data : list Row) : list Row :=
  filter (fun d => negb (String.eqb (occupation d) "")
                   && negb (String.eqb (occupation d) "?")) data.

Definition occupationRates (data : list Row) : list Rate :=
  js_sort byRateDescending (rateBy (occupationData data) occupation isHighIncome).

(** First revision: width = 1000 - 120 - 30. *)
Definition width : number := Num (ofZ 850).
Definition x (data : list Row) : option number -> option number :=
  d3.scaleLinear
    (Num (ofZ 0), to_number (d3.max (map rate (occupationRates data))))
    (Num (ofZ 0), width).
End OccupationChart.

Module AgeChart.
(** First revision: width = 500 - 60 - 30. *)
Definition width : number := Num (ofZ 410).
Definition x : option number -> option number :=
  d3.scaleLinear (Num (ofZ 15), Num (ofZ 95)) (Num (ofZ 0), width).

Definition sumstatArray (data : list Row) : list (Entry Summary) :=
  entries (d3.rollup data (sumstat age) income).
End AgeChart.

Module HoursChart.
Definition sumstatArray (data : list Row) : list (Entry Summary) :=
  entries (d3.rollup data (sumstat hours_per_week) income).
End HoursChart.

Module CapitalGainsChart.
(** [data.filter(d => d['capital.gain'] > 0)] *)
Definition gainsData (data : list Row) : list Row :=
  filter (fun d => num_gt (capital_gain d) (Num (ofZ 0))) data.

Definition sumstatArray (data : list Row) : list (Entry Summary) :=
  entries (d3.rollup (gainsData data) (sumstat capital_gain) income).
End CapitalGainsChart.

(** * Verification *)

(** ** Rationals *)

Lemma qc_leb_le (a b : Qc) : qc_leb a b = true <-> a <= b.
Proof. unfold qc_leb, Qcle. apply Qle_bool_iff. Qed.

Lemma qc_leb_gt (a b : Qc) : qc_leb a b = false <-> b < a.
Proof.
  split; intro H.
  - apply Qcnot_le_lt. intro L. apply qc_leb_le in L. congruence.
  - destruct (qc_leb a b) eqn:E; auto.
    apply qc_leb_le in E. exfalso. exact (Qcle_not_lt _ _ E H).
Qed.

Lemma qc_ltb_lt (a b : Qc) : qc_ltb a b = true <-> a < b.
Proof.
  unfold qc_ltb. rewrite negb_true_iff. apply (qc_leb_gt b a).
Qed.

Lemma qc_ltb_ge (a b : Qc) : qc_ltb a b = false <-> b <= a.
Proof.
  unfold qc_ltb. rewrite negb_false_iff. apply (qc_leb_le b a).
Qed.

Lemma qc_eqb_eq (a b : Qc) : qc_eqb a b = true <-> a = b.
Proof.
  unfold qc_eqb. rewrite Qeq_bool_iff. split.
  - apply Qc_is_canon.
  - intros ->. reflexivity.
Qed.

Lemma Qcle_total (a b : Qc) : a <= b \/ b <= a.
Proof.
  destruct (Qclt_le_dec a b) as [H | H]; auto using Qclt_le_weak.
Qed.

(** Goals over [Qc] are moved to [Q], where [lra] and [nra] work. *)
Ltac qc2q :=
  repeat (unfold Qcle, Qclt, Qcplus, Qcminus, Qcmult, Qcopp, Qcdiv, Qcinv,
            ofnat, ofZ in *;
          cbn [this Q2Qc] in *;
          rewrite ?Qred_correct in * ).

Ltac qc_eq := apply Qc_is_canon; qc2q.

(** ** Sorting *)

Section SortFacts.
Context {A : Type} (compareFn : A -> A -> number).

Lemma insert_perm (x : A) (l : list A) :
  Permutation (insert compareFn x l) (x :: l).
Proof.
  induction l as [| y l IH]; simpl.
  - reflexivity.
  - destruct (before compareFn x y).
    + reflexivity.
    + rewrite IH. apply perm_swap.
Qed.

Lemma js_sort_perm (l : list A) : Permutation (js_sort compareFn l) l.
Proof.
  induction l as [| x l IH]; simpl.
  - reflexivity.
  - rewrite insert_perm. now constructor.
Qed.

(** Stability: rows that the comparator ranks equal keep their order. *)
Lemma insert_filter (P : A -> bool) (x : A) (l : list A) :
  (forall y, P x = true -> P y = true -> before compareFn x y = true) ->
  filter P (insert compareFn x l) = filter P (x :: l).
Proof.
  intros HP. induction l as [| y l IH]; simpl.
  - reflexivity.
  - destruct (before compareFn x y) eqn:B; simpl.
    + reflexivity.
    + simpl in IH. rewrite IH.
      destruct (P x) eqn:Px; auto.
      destruct (P y) eqn:Py; auto.
      rewrite HP in B by auto. discriminate.
Qed.

Lemma js_sort_stable (P : A -> bool) (l : list A) :
  (forall x y, P x = true -> P y = true -> before compareFn x y = true) ->
  filter P (js_sort compareFn l) = filter P l.
Proof.
  intros HP. induction l as [| x l IH]; simpl.
  - reflexivity.
  - rewrite insert_filter by (intros; now apply HP).
    simpl. now rewrite IH.
Qed.

(** On elements that the comparator orders totally and transitively
    the result is ordered. *)
Section Ordered.
Variable P : A -> Prop.
Hypothesis before_total :
  forall x y, P x -> P y ->
              before compareFn x y = true \/ before compareFn y x = true.
Hypothesis before_trans :
  forall x y z, P x -> P y -> P z ->
                before compareFn x y = true -> before compareFn y z = true ->
                before compareFn x z = true.

Let le (x y : A) : Prop := before compareFn x y = true.

Lemma insert_sorted (x : A) (l : list A) :
  P x -> Forall P l ->
  StronglySorted le l -> StronglySorted le (insert compareFn x l).
Proof.
  intros Px Pl. induction 1 as [| y l Hs IH Hy]; simpl.
  - repeat constructor.
  - inversion Pl as [| ? ? Py Pl']; subst.
    destruct (before compareFn x y) eqn:B.
    + constructor; [now constructor |].
      constructor; [exact B |].
      rewrite Forall_forall in *. intros z Hz. unfold le in *.
      apply (before_trans x y z); auto.
    + constructor; [now apply IH |].
      eapply Permutation_Forall; [symmetry; apply insert_perm |].
      constructor; [| exact Hy].
      destruct (before_total x y Px Py); [congruence | assumption].
Qed.

Lemma js_sort_sorted (l : list A) :
  Forall P l -> StronglySorted le (js_sort compareFn l).
Proof.
  induction 1 as [| x l Px Pl IH]; simpl; [constructor |].
  apply insert_sorted; auto.
  eapply Permutation_Forall; [symmetry; apply js_sort_perm | exact Pl].
Qed.
End Ordered.

End SortFacts.

(** Two arrangements of the same elements that are both in order for an
    antisymmetric relation coincide. *)
Lemma sorted_unique {A : Type} (R : A -> A -> Prop) (l l' : list A) :
  (forall x y, In x l -> In y l -> R x y -> R y x -> x = y) ->
  StronglySorted R l -> StronglySorted R l' -> Permutation l l' -> l = l'.
Proof.
  intros Hanti Hs. revert l' Hanti.
  induction Hs as [| a s Hs IH Ha]; intros l' Hanti Hs' Hp.
  - apply Permutation_nil in Hp. now subst.
  - destruct l' as [| b t].
    + symmetry in Hp. apply Permutation_nil in Hp. discriminate.
    + inversion Hs' as [| ? ? Ht Hb]; subst.
      rewrite Forall_forall in Ha, Hb.
      assert (In b (a :: s)) as Hb_in
          by (eapply Permutation_in; [symmetry; exact Hp | now left]).
      assert (In a (b :: t)) as Ha_in
          by (eapply Permutation_in; [exact Hp | now left]).
      assert (a = b) as ->.
      { destruct Hb_in as [E | Hbs]; [exact E |].
        destruct Ha_in as [E | Hat]; [now symmetry |].
        apply Hanti; auto using in_eq, in_cons. }
      f_equal. apply IH; auto.
      * intros x y Hx Hy. apply Hanti; now right.
      * eapply Permutation_cons_inv; eauto.
Qed.

(** With a comparator that is a total order on the elements, the sorted
    array depends only on which elements there are. *)
Lemma js_sort_perm_eq {A : Type} (compareFn : A -> A -> number)
  (P : A -> Prop) (l l' : list A) :
  (forall x y, P x -> P y ->
               before compareFn x y = true \/ before compareFn y x = true) ->
  (forall x y z, P x -> P y -> P z ->
                 before compareFn x y = true -> before compareFn y z = true ->
                 before compareFn x z = true) ->
  (forall x y, P x -> P y ->
               before compareFn x y = true -> before compareFn y x = true ->
               x = y) ->
  Forall P l -> Permutation l l' ->
  js_sort compareFn l = js_sort compareFn l'.
Proof.
  intros Htot Htrans Hanti Hl Hp.
  assert (Forall P l') as Hl' by (eapply Permutation_Forall; eauto).
  apply (sorted_unique (fun x y => before compareFn x y = true)).
  - rewrite Forall_forall in Hl. intros x y Hx Hy.
    apply (Permutation_in _ (js_sort_perm compareFn l)) in Hx.
    apply (Permutation_in _ (js_sort_perm compareFn l)) in Hy.
    apply Hanti; auto.
  - now apply (js_sort_sorted compareFn P).
  - now apply (js_sort_sorted compareFn P).
  - rewrite js_sort_perm, Hp. symmetry. apply js_sort_perm.
Qed.

Lemma filter_perm {A : Type} (P : A -> bool) (l l' : list A) :
  Permutation l l' -> Permutation (filter P l) (filter P l').
Proof.
  induction 1; simpl.
  - constructor.
  - destruct (P x); auto.
  - destruct (P x), (P y); auto. apply perm_swap.
  - etransitivity; eauto.
Qed.

(** ** Grouping *)

(** The distinct keys of a sequence, each at its first occurrence. *)
Fixpoint first_seen (keys : list string) : list string :=
  match keys with
  | [] => []
  | k :: rest => k :: filter (fun k' => negb (String.eqb k' k)) (first_seen rest)
  end.

Lemma first_seen_In (keys : list string) (k : string) :
  In k (first_seen keys) <-> In k keys.
Proof.
  induction keys as [| a keys IH]; simpl; [tauto |].
  rewrite filter_In, IH, negb_true_iff, String.eqb_neq.
  destruct (string_dec a k); intuition congruence.
Qed.

Lemma NoDup_filter {A : Type} (P : A -> bool) (l : list A) :
  NoDup l -> NoDup (filter P l).
Proof.
  induction 1 as [| x l Hx Hl IH]; simpl; [constructor |].
  destruct (P x); auto. constructor; auto.
  rewrite filter_In. tauto.
Qed.

Lemma first_seen_NoDup (keys : list string) : NoDup (first_seen keys).
Proof.
  induction keys as [| a keys IH]; simpl; constructor.
  - rewrite filter_In, negb_true_iff, String.eqb_neq. tauto.
  - now apply NoDup_filter.
Qed.

Lemma filter_none {A : Type} (P : A -> bool) (l : list A) :
  (forall x, In x l -> P x = false) -> filter P l = [].
Proof.
  induction l as [| a l IH]; simpl; intros H; auto.
  rewrite (H a) by auto. auto.
Qed.

Lemma first_seen_snoc (keys : list string) (k : string) :
  first_seen (keys ++ [k]) =
  if in_dec string_dec k keys then first_seen keys else first_seen keys ++ [k].
Proof.
  induction keys as [| a keys IH]; simpl.
  - reflexivity.
  - rewrite IH. destruct (string_dec a k) as [-> | Hak].
    + destruct (in_dec string_dec k keys); auto.
      rewrite filter_app. simpl. rewrite String.eqb_refl. simpl.
      now rewrite app_nil_r.
    + destruct (in_dec string_dec k keys) as [Hin | Hin];
        destruct (in_dec string_dec k (a :: keys)) as [Hin' | Hin'];
        simpl in *; try tauto.
      rewrite filter_app. simpl.
      assert (String.eqb k a = false) as -> by (apply String.eqb_neq; congruence).
      reflexivity.
Qed.

Section GroupFacts.
Context {A : Type} (keyof : A -> string).

Definition members (values : list A) (k : string) : list A :=
  filter (fun v => String.eqb (keyof v) k) values.

Definition bucket (values : list A) (k : string) : string * list A :=
  (k, members values k).

Lemma bucket_snoc (values : list A) (x : A) (k : string) :
  bucket (values ++ [x]) k =
  (k, members values k ++ if String.eqb (keyof x) k then [x] else []).
Proof. unfold bucket, members. now rewrite filter_app. Qed.

Lemma bucket_snoc_other (values : list A) (x : A) (k : string) :
  k <> keyof x -> bucket (values ++ [x]) k = bucket values k.
Proof.
  intros Hne. rewrite bucket_snoc.
  assert (String.eqb (keyof x) k = false) as ->
      by (apply String.eqb_neq; congruence).
  now rewrite app_nil_r.
Qed.

Lemma push_buckets (values : list A) (x : A) (ks : list string) :
  NoDup ks ->
  d3.push (keyof x) x (map (bucket values) ks) =
  if in_dec string_dec (keyof x) ks
  then map (bucket (values ++ [x])) ks
  else map (bucket (values ++ [x])) ks ++ [(keyof x, [x])].
Proof.
  induction 1 as [| k ks Hk Hks IH].
  - reflexivity.
  - cbn [map d3.push bucket]. fold (bucket values k).
    destruct (String.eqb k (keyof x)) eqn:E.
    + apply String.eqb_eq in E.
      destruct (in_dec string_dec (keyof x) (k :: ks)) as [_ | N];
        [| exfalso; apply N; now left].
      rewrite bucket_snoc.
      assert (String.eqb (keyof x) k = true) as ->
          by (apply String.eqb_eq; congruence).
      unfold bucket at 1. f_equal. apply map_ext_in. intros k' Hk'.
      symmetry. apply bucket_snoc_other. congruence.
    + apply String.eqb_neq in E. rewrite IH.
      rewrite <- (bucket_snoc_other values x k E).
      destruct (in_dec string_dec (keyof x) ks) as [Hin | Hin];
        destruct (in_dec string_dec (keyof x) (k :: ks)) as [Hin' | Hin'];
        simpl in Hin'; try reflexivity; intuition congruence.
Qed.

(** The Map built by d3.group: one entry per distinct key, in order of
    first occurrence, holding the values with that key in input order. *)
Lemma group_buckets (values : list A) :
  d3.group values keyof =
  map (bucket values) (first_seen (map keyof values)).
Proof.
  induction values as [| x values IH] using rev_ind.
  - reflexivity.
  - unfold d3.group in *. rewrite fold_left_app. simpl. rewrite IH.
    rewrite push_buckets by apply first_seen_NoDup.
    rewrite map_app. simpl. rewrite first_seen_snoc.
    destruct (in_dec string_dec (keyof x) (first_seen (map keyof values)))
      as [Hin | Hin];
      destruct (in_dec string_dec (keyof x) (map keyof values))
      as [Hin' | Hin']; rewrite first_seen_In in Hin; try tauto.
    rewrite map_app. simpl. f_equal.
    unfold bucket, members. rewrite filter_app. simpl.
    rewrite String.eqb_refl. rewrite filter_none; auto.
    intros v Hv. apply String.eqb_neq. intros E. apply Hin'.
    rewrite <- E. now apply in_map.
Qed.

Lemma members_nonempty (values : list A) (k : string) :
  In k (map keyof values) -> members values k <> [].
Proof.
  rewrite in_map_iff. intros (v & <- & Hv) E.
  assert (In v (members values (keyof v))) as Hin
      by (apply filter_In; split; auto using String.eqb_refl).
  rewrite E in Hin. destruct Hin.
Qed.

Lemma group_In (values : list A) (k : string) (g : list A) :
  In (k, g) (d3.group values keyof) ->
  g = members values k /\ g <> [] /\ In k (map keyof values).
Proof.
  rewrite group_buckets, in_map_iff. intros (k' & E & Hk').
  inversion E; subst. rewrite first_seen_In in Hk'.
  auto using members_nonempty.
Qed.

(** The groups partition the input. *)
Lemma members_length_sum (values : list A) (ks : list string) :
  NoDup ks -> (forall v, In v values -> In (keyof v) ks) ->
  list_sum (map (fun k => length (members values k)) ks) = length values.
Proof.
  intros Hnd. induction values as [| x values IH] using rev_ind; intros Hall.
  - clear. induction ks as [| k ks IH]; simpl; auto.
  - assert (forall v, In v values -> In (keyof v) ks) as Hall'
        by (intros; apply Hall, in_or_app; auto).
    specialize (IH Hall').
    assert (In (keyof x) ks) as Hx by (apply Hall, in_or_app; simpl; auto).
    rewrite length_app. simpl. rewrite <- IH. clear IH Hall Hall'.
    induction Hnd as [| k ks Hk Hks IHks]; simpl in *; [tauto |].
    unfold members at 1. rewrite filter_app, length_app. simpl.
    destruct (string_dec k (keyof x)) as [-> | Hne].
    + rewrite String.eqb_refl. simpl.
      assert (map (fun k => length (members (values ++ [x]) k)) ks =
              map (fun k => length (members values k)) ks) as ->.
      { apply map_ext_in. intros k' Hk'. unfold members.
        rewrite filter_app, length_app. simpl.
        assert (String.eqb (keyof x) k' = false) as ->
            by (apply String.eqb_neq; congruence).
        simpl. lia. }
      unfold members. lia.
    + assert (String.eqb (keyof x) k = false) as ->
          by (apply String.eqb_neq; congruence).
      simpl. destruct Hx as [Hx | Hx]; [congruence |].
      rewrite IHks by assumption. unfold members. lia.
Qed.
End GroupFacts.

(** ** Counting and rates *)

Definition mkRow (income education occupation : string) (education_num : number)
  : Row :=
  {| age := NaN; hours_per_week := NaN; education_num := education_num;
     capital_gain := NaN; capital_loss := NaN;
     income := income; education := education; occupation := occupation;
     sex := "N/A"; marital_status := "N/A" |}.

Lemma countBy_buckets (records : list Row) (keyOf : Row -> string) :
  countBy records keyOf =
  map (fun k => Build_Entry k (length (members keyOf records k)))
      (first_seen (map keyOf records)).
Proof.
  unfold countBy, entries, d3.rollup.
  rewrite group_buckets, !map_map. reflexivity.
Qed.

(** C5. countBy returns one aggregate per distinct observed key, in the
    order in which the keys are first seen; each count is the number of
    records with that key; the counts add up to the number of records. *)
Theorem countBy_partition (records : list Row) (keyOf : Row -> string) :
  map key (countBy records keyOf) = first_seen (map keyOf records)
  /\ NoDup (map key (countBy records keyOf))
  /\ (forall k, In k (map key (countBy records keyOf)) <->
                In k (map keyOf records))
  /\ Forall (fun e => value e = length (members keyOf records (key e))
                      /\ (1 <= value e)%nat)
            (countBy records keyOf)
  /\ list_sum (map value (countBy records keyOf)) = length records
  /\ countBy [mkRow ">50K" "" "" NaN; mkRow ">50K" "" "" NaN;
              mkRow "<=50K" "" "" NaN] income
     = [Build_Entry ">50K" 2%nat; Build_Entry "<=50K" 1%nat].
Proof.
  assert (map key (countBy records keyOf) = first_seen (map keyOf records))
    as Hkeys.
  { rewrite countBy_buckets, map_map. simpl. apply map_id. }
  split; [exact Hkeys |].
  split; [rewrite Hkeys; apply first_seen_NoDup |].
  split; [intro k; rewrite Hkeys; apply first_seen_In |].
  split; [| split].
  - rewrite countBy_buckets. apply Forall_forall. intros e He.
    apply in_map_iff in He. destruct He as (k & <- & Hk). simpl.
    split; [reflexivity |].
    apply -> first_seen_In in Hk. apply (members_nonempty keyOf) in Hk.
    destruct (members keyOf records k); simpl; [congruence | lia].
  - rewrite countBy_buckets, map_map. simpl.
    apply members_length_sum.
    + apply first_seen_NoDup.
    + intros v Hv. apply first_seen_In. now apply in_map.
  - reflexivity.
Qed.

Lemma ofnat_pos (n : nat) : (1 <= n)%nat -> 0 < ofnat n.
Proof.
  intros H. qc2q. change 0%Q with (inject_Z 0). rewrite <- Zlt_Qlt. lia.
Qed.

Lemma ofnat_le (m n : nat) : (m <= n)%nat -> ofnat m <= ofnat n.
Proof. intros H. qc2q. rewrite <- Zle_Qle. lia. Qed.

Lemma ratio_bounds (m t : nat) :
  (1 <= t)%nat -> (m <= t)%nat ->
  0 <= ofnat m / ofnat t /\ ofnat m / ofnat t <= 1.
Proof.
  intros Ht Hm.
  pose proof (ofnat_pos t Ht) as Pt.
  pose proof (ofnat_le m t Hm) as Lm.
  pose proof (ofnat_le 0 m (Nat.le_0_l m)) as L0.
  unfold ofnat in *. set (a := ofZ (Z.of_nat m)) in *.
  set (b := ofZ (Z.of_nat t)) in *. change (ofZ (Z.of_nat 0)) with 0 in L0.
  clearbody a b. qc2q. split.
  - apply Qle_shift_div_l; [assumption | lra].
  - apply Qle_shift_div_r; [assumption | lra].
Qed.

(** What the rate of a group is: the share of matching rows among the
    rows of the group, a group never being empty. *)
Definition is_rate (matchPredicate : Row -> bool) (g : list Row)
  (rate : number) (total : nat) : Prop :=
  total = length g
  /\ (1 <= total)%nat
  /\ (matched matchPredicate g <= total)%nat
  /\ rate = Num (ofnat (matched matchPredicate g) / ofnat total)
  /\ exists q, rate = Num q /\ 0 <= q /\ q <= 1.

Lemma is_rate_group (matchPredicate : Row -> bool) (g : list Row) :
  g <> [] ->
  is_rate matchPredicate g
    (length_ratio (matched matchPredicate g) (length g)) (length g).
Proof.
  intros Hg.
  assert (1 <= length g)%nat as H1 by (destruct g; simpl; [congruence | lia]).
  assert (matched matchPredicate g <= length g)%nat as H2
      by apply filter_length_le.
  repeat split; auto.
  - unfold length_ratio. destruct (length g); [lia | reflexivity].
  - exists (ofnat (matched matchPredicate g) / ofnat (length g)).
    split; [| now apply ratio_bounds].
    unfold length_ratio. destruct (length g); [lia | reflexivity].
Qed.

(** C6. Every rate aggregate belongs to a group with at least one row,
    its rate is matched / total and lies between 0 and 1.  This holds
    for the generic pattern, for the sorted chart arrays built from it
    and for the education chart. *)
Theorem rateBy_total_positive (records : list Row) (keyOf : Row -> string)
  (matchPredicate : Row -> bool) :
  Forall (fun a => is_rate matchPredicate (members keyOf records (name a))
                     (rate a) (total a))
         (rateBy records keyOf matchPredicate)
  /\ Forall (fun a => is_rate isHighIncome
                        (members occupation (OccupationChart.occupationData records) (name a))
                        (rate a) (total a))
            (OccupationChart.occupationRates records)
  /\ Forall (fun a => is_rate isHighIncome
                        (members EducationChart.keyOf records (EducationChart.education a))
                        (EducationChart.rate a) (EducationChart.total a))
            (EducationChart.educationRates records).
Proof.
  assert (forall rs kf mp,
             Forall (fun a => is_rate mp (members kf rs (name a)) (rate a) (total a))
                    (rateBy rs kf mp)) as Hgen.
  { intros rs kf mp. apply Forall_forall. intros a Ha.
    unfold rateBy in Ha. apply in_map_iff in Ha.
    destruct Ha as ([k g] & <- & Hin). simpl.
    apply group_In in Hin. destruct Hin as (-> & Hne & _).
    now apply is_rate_group. }
  split; [apply Hgen |]. split.
  - unfold OccupationChart.occupationRates.
    eapply Permutation_Forall; [symmetry; apply js_sort_perm | apply Hgen].
  - unfold EducationChart.educationRates.
    eapply Permutation_Forall; [symmetry; apply js_sort_perm |].
    apply Forall_forall. intros a Ha.
    unfold EducationChart.unsorted in Ha. apply in_map_iff in Ha.
    destruct Ha as ([k g] & <- & Hin). simpl.
    apply group_In in Hin. destruct Hin as (-> & Hne & _).
    now apply is_rate_group.
Qed.

(** ** Ordering of the rate arrays *)

(** [a] has the finite rate [q]. *)
Definition has_rate (q : Qc) (a : Rate) : bool :=
  match rate a with
  | Num r => qc_eqb r q
  | NaN => false
  end.

Definition finite_rate (a : Rate) : Prop := exists q, rate a = Num q.

Lemma before_descending (a b : Rate) (x y : Qc) :
  rate a = Num x -> rate b = Num y ->
  (before byRateDescending a b = true <-> x >= y).
Proof.
  intros Ha Hb. unfold before, byRateDescending. rewrite Ha, Hb. simpl.
  rewrite qc_leb_le. split; intro H; qc2q; lra.
Qed.

Lemma before_byRateAscending (a b : Rate) (x y : Qc) :
  rate a = Num x -> rate b = Num y ->
  (before byRateAscending a b = true <-> x <= y).
Proof.
  intros Ha Hb. unfold before, byRateAscending. rewrite Ha, Hb. simpl.
  rewrite qc_leb_le. split; intro H; qc2q; lra.
Qed.

Lemma rateBy_finite (records : list Row) (keyOf : Row -> string)
  (matchPredicate : Row -> bool) :
  Forall finite_rate (rateBy records keyOf matchPredicate).
Proof.
  apply Forall_forall. intros a Ha.
  unfold rateBy in Ha. apply in_map_iff in Ha.
  destruct Ha as ([k g] & <- & Hin). simpl.
  apply group_In in Hin. destruct Hin as (-> & Hne & _).
  destruct (is_rate_group matchPredicate _ Hne) as (_ & _ & _ & _ & q & Hq & _).
  now exists q.
Qed.

Lemma rateBy_names (records : list Row) (keyOf : Row -> string)
  (matchPredicate : Row -> bool) :
  map name (rateBy records keyOf matchPredicate) =
  first_seen (map keyOf records).
Proof.
  unfold rateBy. rewrite group_buckets, !map_map. simpl. apply map_id.
Qed.

(** The tie rule of the specification, for one sorted array: rows with
    equal rates come in ascending lexical order of their names. *)
Definition ties_in_lexical_order (l : list Rate) : Prop :=
  forall i j a b,
    (i < j)%nat -> nth_error l i = Some a -> nth_error l j = Some b ->
    rate a = rate b -> String.leb (name a) (name b) = true.

(** C7, counterexample.  Two occupations without a high-income row tie
    at rate 0; the chart keeps them in the order of the input rows,
    "Sales" before "Adm-clerical". *)
Lemma occupationRates_ties_not_lexical :
  ~ ties_in_lexical_order
      (OccupationChart.occupationRates
         [mkRow "<=50K" "HS-grad" "Sales" NaN;
          mkRow "<=50K" "HS-grad" "Adm-clerical" NaN]).
Proof.
  intros H.
  specialize (H 0%nat 1%nat _ _ (Nat.lt_0_succ 0) eq_refl eq_refl eq_refl).
  vm_compute in H. discriminate.
Qed.

(** The spec's example for the sex chart: 2 of 5 against 1 of 5. *)
Definition sexRow (sex income : string) : Row :=
  {| age := NaN; hours_per_week := NaN; education_num := NaN;
     capital_gain := NaN; capital_loss := NaN;
     income := income; education := "N/A"; occupation := "N/A";
     sex := sex; marital_status := "N/A" |}.

Example sexRates_example :
  SexChart.sexRates
    [sexRow "Female" ">50K"; sexRow "Female" "<=50K"; sexRow "Male" ">50K";
     sexRow "Female" "<=50K"; sexRow "Male" "<=50K"; sexRow "Male" ">50K";
     sexRow "Female" "<=50K"; sexRow "Male" "<=50K"; sexRow "Female" "<=50K";
     sexRow "Male" "<=50K"]
  = [ {| name := "Male"; rate := Num (Q2Qc (2 # 5)); total := 5 |};
      {| name := "Female"; rate := Num (Q2Qc (1 # 5)); total := 5 |} ].
Proof. vm_compute. reflexivity. Qed.

(** ** Linear scales *)

Lemma qc_eqb_neq (a b : Qc) : qc_eqb a b = false <-> a <> b.
Proof.
  rewrite <- qc_eqb_eq. destruct (qc_eqb a b); split; congruence.
Qed.

Lemma qc_sub_zero (a b : Qc) : a - b = 0 <-> a = b.
Proof.
  split; intro H.
  - rewrite <- (Qcplus_0_l b), <- H. ring.
  - subst. ring.
Qed.

(** C8, counterexample.  The age axis maps [15, 95] to [0, 410]; the
    age 10 lies left of the domain and lands left of the range. *)
Lemma AgeChart_x_not_clamped :
  exists y, AgeChart.x (Some (Num (ofZ 10))) = Some (Num y)
            /\ ~ (0 <= y /\ y <= ofZ 410).
Proof.
  exists (Q2Qc (-205 # 8)). split.
  - vm_compute. reflexivity.
  - intros [H _]. vm_compute in H. now apply H.
Qed.

(** C8, as the code has it.  With [d0 < d1] every finite value, inside
    the domain or not, goes to [r0 + (v - d0) / (d1 - d0) * (r1 - r0)];
    values outside the domain are extrapolated on the same line. *)
Theorem scaleLinear_affine (d0 d1 r0 r1 v : Qc) :
  d0 < d1 ->
  d3.scaleLinear (Num d0, Num d1) (Num r0, Num r1) (Some (Num v))
  = Some (Num (r0 + (v - d0) / (d1 - d0) * (r1 - r0))).
Proof.
  intros Hd. unfold d3.scaleLinear, d3.bimap. simpl.
  assert (qc_ltb d1 d0 = false) as -> by (apply qc_ltb_ge; now apply Qclt_le_weak).
  unfold d3.interpolateNumber, d3.normalize. simpl.
  assert (qc_eqb (d1 - d0) 0 = false) as ->.
  { apply qc_eqb_neq. rewrite qc_sub_zero. intros ->.
    exact (Qclt_not_eq _ _ Hd eq_refl). }
  simpl. do 2 f_equal. ring.
Qed.

Lemma scaleLinear_affine_witness :
  d3.scaleLinear (Num (ofZ 15), Num (ofZ 95)) (Num (ofZ 0), Num (ofZ 410))
    (Some (Num (ofZ 10)))
  = Some (Num (ofZ 0 + (ofZ 10 - ofZ 15) / (ofZ 95 - ofZ 15) * (ofZ 410 - ofZ 0))).
Proof.
  apply (scaleLinear_affine (ofZ 15) (ofZ 95) (ofZ 0) (ofZ 410) (ofZ 10)).
  reflexivity.
Defined.

(** C9, counterexample.  One occupation with no high-income row: the
    domain of the bar-length scale is [0, 0], and the rate 0 is drawn at
    half the width, not at the start of the range. *)
Lemma OccupationChart_x_degenerate :
  OccupationChart.x [mkRow "<=50K" "HS-grad" "Sales" NaN] (Some (Num (ofZ 0)))
  = Some (Num (ofZ 425))
  /\ OccupationChart.x [mkRow "<=50K" "HS-grad" "Sales" NaN] (Some (Num (ofZ 0)))
     <> Some (Num (ofZ 0)).
Proof.
  split.
  - vm_compute. reflexivity.
  - vm_compute. discriminate.
Qed.

(** ** Finite values, minimum and maximum *)

(** The finite values of an array, in order. *)
Fixpoint finite (l : list number) : list Qc :=
  match l with
  | [] => []
  | NaN :: rest => finite rest
  | Num q :: rest => q :: finite rest
  end.

Lemma numbers_finite (l : list number) : d3.numbers l = map Num (finite l).
Proof.
  unfold d3.numbers. induction l as [| [| q] l IH]; simpl; auto.
  rewrite (proj2 (qc_leb_le q q) (Qcle_refl q)). simpl. now rewrite IH.
Qed.

Lemma finite_map_Num (s : list Qc) : finite (map Num s) = s.
Proof. induction s; simpl; congruence. Qed.

Lemma finite_perm (l l' : list number) :
  Permutation l l' -> Permutation (finite l) (finite l').
Proof.
  induction 1 as [| x l l' _ IH | x y l | l l' l'' _ IH1 _ IH2]; simpl.
  - constructor.
  - destruct x; auto.
  - destruct x, y; auto. apply perm_swap.
  - etransitivity; eauto.
Qed.

Lemma all_Num (l : list number) :
  Forall (fun v => isNaN v = false) l -> l = map Num (finite l).
Proof.
  induction 1 as [| [| q] l Hx Hl IH]; simpl; try discriminate; congruence.
Qed.

(** A least and a greatest element of a list of rationals. *)
Definition least (m : Qc) (s : list Qc) : Prop := In m s /\ Forall (Qcle m) s.
Definition greatest (m : Qc) (s : list Qc) : Prop :=
  In m s /\ Forall (fun x => x <= m) s.

Lemma least_unique (m m' : Qc) (s s' : list Qc) :
  Permutation s s' -> least m s -> least m' s' -> m = m'.
Proof.
  intros Hp [Hin Hle] [Hin' Hle']. rewrite Forall_forall in *.
  apply Qcle_antisym.
  - apply Hle. eapply Permutation_in; [symmetry |]; eauto.
  - apply Hle'. eapply Permutation_in; eauto.
Qed.

Lemma greatest_unique (m m' : Qc) (s s' : list Qc) :
  Permutation s s' -> greatest m s -> greatest m' s' -> m = m'.
Proof.
  intros Hp [Hin Hle] [Hin' Hle']. rewrite Forall_forall in *.
  apply Qcle_antisym.
  - apply Hle'. eapply Permutation_in; eauto.
  - apply Hle. eapply Permutation_in; [symmetry |]; eauto.
Qed.

Lemma min_fold (s : list Qc) (a : Qc) :
  exists m, fold_left d3.min_step (map Num s) (Some (Num a)) = Some (Num m)
            /\ least m (a :: s).
Proof.
  revert a. induction s as [| x s IH]; intros a; simpl.
  - exists a. repeat split; auto using Qcle_refl.
    constructor; auto using Qcle_refl.
  - unfold num_gt. simpl. destruct (qc_ltb x a) eqn:E.
    + apply qc_ltb_lt in E. destruct (IH x) as (m & Hm & Hin & Hle).
      exists m. split; [exact Hm |]. inversion Hle; subst. split.
      * right. exact Hin.
      * constructor; [| assumption].
        eapply Qcle_trans; [eassumption | now apply Qclt_le_weak].
    + apply qc_ltb_ge in E. destruct (IH a) as (m & Hm & Hin & Hle).
      exists m. split; [exact Hm |]. inversion Hle; subst. split.
      * destruct Hin; [now left | right; now right].
      * constructor; [assumption |]. constructor; [| assumption].
        eapply Qcle_trans; eassumption.
Qed.

Lemma max_fold (s : list Qc) (a : Qc) :
  exists m, fold_left d3.max_step (map Num s) (Some (Num a)) = Some (Num m)
            /\ greatest m (a :: s).
Proof.
  revert a. induction s as [| x s IH]; intros a; simpl.
  - exists a. repeat split; auto using Qcle_refl.
    constructor; auto using Qcle_refl.
  - destruct (qc_ltb a x) eqn:E.
    + apply qc_ltb_lt in E. destruct (IH x) as (m & Hm & Hin & Hle).
      exists m. split; [exact Hm |]. inversion Hle; subst. split.
      * right. exact Hin.
      * constructor; [| assumption].
        eapply Qcle_trans; [apply Qclt_le_weak; eassumption | eassumption].
    + apply qc_ltb_ge in E. destruct (IH a) as (m & Hm & Hin & Hle).
      exists m. split; [exact Hm |]. inversion Hle; subst. split.
      * destruct Hin; [now left | right; now right].
      * constructor; [assumption |]. constructor; [| assumption].
        eapply Qcle_trans; eassumption.
Qed.

Lemma min_Num (s : list Qc) :
  s <> [] -> exists m, d3.min (map Num s) = Some (Num m) /\ least m s.
Proof.
  destruct s as [| a s]; [congruence | intros _].
  unfold d3.min. simpl. rewrite (proj2 (qc_leb_le a a) (Qcle_refl a)).
  apply min_fold.
Qed.

Lemma max_Num (s : list Qc) :
  s <> [] -> exists m, d3.max (map Num s) = Some (Num m) /\ greatest m s.
Proof.
  destruct s as [| a s]; [congruence | intros _].
  unfold d3.max. simpl. rewrite (proj2 (qc_leb_le a a) (Qcle_refl a)).
  apply max_fold.
Qed.

(** d3.min and d3.max pass over [NaN]. *)
Lemma min_numbers (l : list number) : d3.min l = d3.min (d3.numbers l).
Proof.
  unfold d3.min, d3.numbers. generalize (@None number).
  induction l as [| [| q] l IH]; intros acc; simpl; auto.
  - rewrite <- IH. destruct acc; reflexivity.
  - rewrite (proj2 (qc_leb_le q q) (Qcle_refl q)). simpl. apply IH.
Qed.

Lemma max_numbers (l : list number) : d3.max l = d3.max (d3.numbers l).
Proof.
  unfold d3.max, d3.numbers. generalize (@None number).
  induction l as [| [| q] l IH]; intros acc; simpl; auto.
  - rewrite <- IH. destruct acc as [[| m] |]; reflexivity.
  - rewrite (proj2 (qc_leb_le q q) (Qcle_refl q)). simpl. apply IH.
Qed.

(** ** Degenerate domains *)

Lemma max_all_zero (l : list number) :
  l <> [] -> Forall (fun v => v = Num 0) l -> d3.max l = Some (Num 0).
Proof.
  intros Hne Hall.
  assert (l = map Num (finite l)) as Hl.
  { apply all_Num. eapply Forall_impl; [| exact Hall].
    intros v ->. reflexivity. }
  assert (finite l <> []) as Hf by (intros E; rewrite E in Hl; auto).
  destruct (max_Num (finite l) Hf) as (m & Hm & Hin & _).
  rewrite <- Hl in Hm. rewrite Hm. do 2 f_equal.
  rewrite Forall_forall in Hall.
  assert (In (Num m) l) as Hin' by (rewrite Hl; now apply in_map).
  apply Hall in Hin'. congruence.
Qed.

Lemma scaleLinear_midpoint (d r0 r1 v : Qc) :
  d3.scaleLinear (Num d, Num d) (Num r0, Num r1) (Some (Num v))
  = Some (Num ((r0 + r1) / Q2Qc 2)).
Proof.
  unfold d3.scaleLinear, d3.bimap. simpl.
  assert (qc_ltb d d = false) as -> by (apply qc_ltb_ge, Qcle_refl).
  unfold d3.interpolateNumber, d3.normalize. simpl.
  assert (qc_eqb (d - d) 0 = true) as -> by (apply qc_eqb_eq; ring).
  simpl. do 2 f_equal. qc_eq. field.
Qed.

(** C9, as the code has it.  With [d0 = d1] every finite value goes to
    the midpoint of the range, and a result is always produced.  When
    every observed rate is 0, the bar-length scale of the occupation
    chart returns half the width and the bar-height scale of the
    education chart half the height. *)
Theorem scaleLinear_degenerate :
  (forall d r0 r1 v : Qc,
      d3.scaleLinear (Num d, Num d) (Num r0, Num r1) (Some (Num v))
      = Some (Num ((r0 + r1) / Q2Qc 2)))
  /\ (forall (data : list Row) (v : Qc),
         OccupationChart.occupationRates data <> [] ->
         Forall (fun a => rate a = Num 0) (OccupationChart.occupationRates data) ->
         OccupationChart.x data (Some (Num v)) = Some (Num (ofZ 425)))
  /\ (forall (data : list Row) (v : Qc),
         EducationChart.educationRates data <> [] ->
         Forall (fun a => EducationChart.rate a = Num 0)
                (EducationChart.educationRates data) ->
         EducationChart.y data (Some (Num v)) = Some (Num (ofZ 130))).
Proof.
  split; [exact scaleLinear_midpoint |]. split.
  - intros data v Hne Hall. unfold OccupationChart.x.
    rewrite max_all_zero.
    + simpl to_number. unfold OccupationChart.width.
      change (Num (ofZ 0)) with (Num 0).
      rewrite scaleLinear_midpoint. do 2 f_equal. now qc_eq.
    + intros E. apply map_eq_nil in E. auto.
    + apply Forall_map. exact Hall.
  - intros data v Hne Hall. unfold EducationChart.y.
    rewrite max_all_zero.
    + simpl to_number. unfold EducationChart.height.
      change (Num (ofZ 0)) with (Num 0).
      rewrite scaleLinear_midpoint. do 2 f_equal. now qc_eq.
    + intros E. apply map_eq_nil in E. auto.
    + apply Forall_map. exact Hall.
Qed.

Lemma scaleLinear_degenerate_witness :
  OccupationChart.x [mkRow "<=50K" "HS-grad" "Sales" NaN] (Some (Num (ofZ 7)))
  = Some (Num (ofZ 425)).
Proof.
  apply (proj1 (proj2 scaleLinear_degenerate)).
  - vm_compute. discriminate.
  - vm_compute. repeat constructor.
Defined.

(** ** Ordered samples *)

Lemma before_ascending_Num (a b : Qc) :
  before d3.ascending (Num a) (Num b) = true <-> a <= b.
Proof.
  unfold before, d3.ascending, num_gt. simpl.
  destruct (qc_ltb a b) eqn:E1.
  - apply qc_ltb_lt in E1. split; [intros _; now apply Qclt_le_weak | reflexivity].
  - apply qc_ltb_ge in E1. destruct (qc_ltb b a) eqn:E2.
    + apply qc_ltb_lt in E2. split; [discriminate |].
      intros H. exfalso. exact (Qcle_not_lt _ _ H E2).
    + apply qc_ltb_ge in E2. split; [intros _; exact E2 |].
      intros _. destruct (qc_leb b a); reflexivity.
Qed.

Lemma sorted_map_Num (s : list Qc) :
  StronglySorted (fun x y => before d3.ascending x y = true) (map Num s) <->
  StronglySorted Qcle s.
Proof.
  induction s as [| a s IH]; simpl.
  - split; constructor.
  - split; intros H; inversion H; subst; constructor;
      try (apply IH; assumption).
    + rewrite Forall_forall in *. intros x Hx.
      apply before_ascending_Num. apply H3. now apply in_map.
    + rewrite Forall_forall in *. intros x Hx.
      apply in_map_iff in Hx. destruct Hx as (y & <- & Hy).
      apply before_ascending_Num. now apply H3.
Qed.

(** The finite values of an array in ascending order. *)
Definition sorted_values (l : list number) : list Qc :=
  finite (js_sort d3.ascending (d3.numbers l)).

Lemma sorted_values_spec (l : list number) :
  js_sort d3.ascending (d3.numbers l) = map Num (sorted_values l)
  /\ StronglySorted Qcle (sorted_values l)
  /\ Permutation (sorted_values l) (finite l).
Proof.
  unfold sorted_values. rewrite numbers_finite.
  set (f := finite l). set (R := js_sort d3.ascending (map Num f)).
  assert (Permutation R (map Num f)) as HP by apply js_sort_perm.
  assert (Forall (fun v => isNaN v = false) (map Num f)) as Hf
      by (apply Forall_forall; intros v Hv; apply in_map_iff in Hv;
          destruct Hv as (q & <- & _); reflexivity).
  assert (R = map Num (finite R)) as HR.
  { apply all_Num. eapply Permutation_Forall; [symmetry; exact HP | exact Hf]. }
  split; [exact HR |]. split.
  - apply sorted_map_Num. rewrite <- HR.
    apply (js_sort_sorted d3.ascending (fun v => isNaN v = false)); auto.
    + intros [| a] [| b]; try discriminate. intros _ _.
      rewrite !before_ascending_Num. apply Qcle_total.
    + intros [| a] [| b] [| c]; try discriminate. intros _ _ _.
      rewrite !before_ascending_Num. apply Qcle_trans.
  - apply finite_perm in HP. rewrite finite_map_Num in HP. exact HP.
Qed.

(** Two ordered arrangements of the same values coincide. *)
Lemma sorted_perm_unique (s t : list Qc) :
  StronglySorted Qcle s -> StronglySorted Qcle t -> Permutation s t -> s = t.
Proof.
  intros Hs. revert t. induction Hs as [| a s Hs IH Ha]; intros t Ht Hp.
  - apply Permutation_nil in Hp. now subst.
  - destruct t as [| b t].
    + symmetry in Hp. apply Permutation_nil in Hp. discriminate.
    + inversion Ht as [| ? ? Ht' Hb]; subst.
      assert (a = b) as ->.
      { apply (least_unique a b (a :: s) (b :: t) Hp); split;
          auto using in_eq; constructor; auto using Qcle_refl. }
      f_equal. apply IH; auto. eapply Permutation_cons_inv; eauto.
Qed.

Lemma sorted_values_perm (l l' : list number) :
  Permutation (finite l) (finite l') -> sorted_values l = sorted_values l'.
Proof.
  intros Hp.
  destruct (sorted_values_spec l) as (_ & Hs & Hl).
  destruct (sorted_values_spec l') as (_ & Hs' & Hl').
  apply sorted_perm_unique; auto.
  rewrite Hl, Hp. now symmetry.
Qed.

Lemma sorted_values_id (s : list Qc) :
  StronglySorted Qcle s -> sorted_values (map Num s) = s.
Proof.
  intros Hs. destruct (sorted_values_spec (map Num s)) as (_ & Hs' & Hp).
  rewrite finite_map_Num in Hp. now apply sorted_perm_unique.
Qed.

Lemma sorted_nth_le (s : list Qc) (i j : nat) :
  StronglySorted Qcle s -> (i <= j)%nat -> (j < length s)%nat ->
  nth i s 0 <= nth j s 0.
Proof.
  intros Hs. revert i j. induction Hs as [| a s Hs IH Ha]; intros i j Hij Hj.
  - simpl in Hj. lia.
  - destruct i as [| i], j as [| j]; simpl in *; try lia.
    + apply Qcle_refl.
    + rewrite Forall_forall in Ha. apply Ha, nth_In. lia.
    + apply IH; lia.
Qed.

Lemma sorted_least (s : list Qc) :
  StronglySorted Qcle s -> s <> [] -> least (nth 0 s 0) s.
Proof.
  intros Hs Hne. destruct s as [| a s]; [congruence |]. simpl.
  inversion Hs; subst. split; [now left |].
  constructor; auto using Qcle_refl.
Qed.

Lemma sorted_greatest (s : list Qc) :
  StronglySorted Qcle s -> s <> [] -> greatest (nth (length s - 1) s 0) s.
Proof.
  intros Hs Hne.
  assert (0 < length s)%nat as Hlen by (destruct s; simpl; [congruence | lia]).
  split.
  - apply nth_In. lia.
  - apply Forall_forall. intros x Hx.
    destruct (In_nth s x 0 Hx) as (i & Hi & <-).
    apply sorted_nth_le; auto; lia.
Qed.

Lemma firstn_greatest (s : list Qc) (k : nat) :
  StronglySorted Qcle s -> (k < length s)%nat ->
  greatest (nth k s 0) (firstn (k + 1) s).
Proof.
  intros Hs Hk. split.
  - rewrite <- (firstn_skipn (k + 1) s) at 1.
    rewrite app_nth1 by (rewrite length_firstn; lia).
    apply nth_In. rewrite length_firstn. lia.
  - apply Forall_forall. intros x Hx.
    destruct (In_nth _ x 0 Hx) as (i & Hi & <-).
    rewrite length_firstn in Hi.
    rewrite <- (firstn_skipn (k + 1) s) at 2.
    rewrite app_nth1 by (rewrite length_firstn; lia).
    assert (nth i (firstn (k + 1) s) 0 = nth i s 0) as ->.
    { rewrite <- (firstn_skipn (k + 1) s) at 2.
      rewrite app_nth1; auto. rewrite length_firstn. lia. }
    assert (nth k (firstn (k + 1) s) 0 = nth k s 0) as ->.
    { rewrite <- (firstn_skipn (k + 1) s) at 2.
      rewrite app_nth1; auto. rewrite length_firstn. lia. }
    apply sorted_nth_le; auto; lia.
Qed.

Lemma skipn_least (s : list Qc) (k : nat) :
  StronglySorted Qcle s -> (k + 1 < length s)%nat ->
  least (nth (k + 1) s 0) (skipn (k + 1) s).
Proof.
  intros Hs Hk.
  assert (forall i, nth i (skipn (k + 1) s) 0 = nth (k + 1 + i) s 0) as Hnth.
  { intros i. rewrite <- (firstn_skipn (k + 1) s) at 2.
    rewrite app_nth2 by (rewrite length_firstn; lia).
    f_equal. rewrite length_firstn. lia. }
  split.
  - replace (nth (k + 1) s 0) with (nth 0 (skipn (k + 1) s) 0)
      by (rewrite Hnth; f_equal; lia).
    apply nth_In. rewrite length_skipn. lia.
  - apply Forall_forall. intros x Hx.
    destruct (In_nth _ x 0 Hx) as (i & Hi & <-).
    rewrite length_skipn in Hi. rewrite Hnth.
    apply sorted_nth_le; auto; lia.
Qed.

(** *** Any partition quickselect may leave

    d3.quantile reads two values off the array that quickselect has
    rearranged: the largest of the first [k + 1] entries and the
    smallest of the rest.  They are the same for every arrangement with
    nothing larger than entry [k] before it and nothing smaller after
    it, so the sorted array stands for all of them. *)

Definition partitioned (k : nat) (a : list Qc) : Prop :=
  Forall (fun x => x <= nth k a 0) (firstn k a)
  /\ Forall (fun x => nth k a 0 <= x) (skipn (k + 1) a).

Lemma StronglySorted_app {A : Type} (R : A -> A -> Prop) (l1 l2 : list A) :
  StronglySorted R l1 -> StronglySorted R l2 ->
  (forall x y, In x l1 -> In y l2 -> R x y) ->
  StronglySorted R (l1 ++ l2).
Proof.
  induction 1 as [| a l1 Hs IH Ha]; intros H2 Hx; simpl; auto.
  constructor.
  - apply IH; auto. intros x y Hin. apply Hx. now right.
  - apply Forall_app. split; auto.
    apply Forall_forall. intros y Hy. apply Hx; auto. now left.
Qed.

Lemma firstn_snoc (a : list Qc) (k : nat) :
  (k < length a)%nat -> firstn (k + 1) a = firstn k a ++ [nth k a 0].
Proof.
  revert a. induction k as [| k IH]; intros [| x a] Hk; simpl in *; try lia.
  - reflexivity.
  - f_equal. apply IH. lia.
Qed.

Lemma split_at (a : list Qc) (k : nat) :
  (k < length a)%nat -> a = firstn k a ++ nth k a 0 :: skipn (k + 1) a.
Proof.
  intros Hk. rewrite <- (firstn_skipn (k + 1) a) at 1.
  rewrite firstn_snoc by assumption. rewrite <- app_assoc. reflexivity.
Qed.

Lemma quickselect_any_partition (a s : list Qc) (k : nat) :
  Permutation a s -> StronglySorted Qcle s -> (k + 1 < length a)%nat ->
  partitioned k a ->
  d3.max (map Num (firstn (k + 1) a)) = Some (Num (nth k s 0))
  /\ d3.min (map Num (skipn (k + 1) a)) = Some (Num (nth (k + 1) s 0)).
Proof.
  intros Hp Hs Hk [Hlo Hhi].
  set (ak := nth k a 0) in *.
  destruct (sorted_values_spec (map Num (firstn k a))) as (_ & HsL & HpL).
  destruct (sorted_values_spec (map Num (skipn (k + 1) a))) as (_ & HsR & HpR).
  rewrite finite_map_Num in HpL, HpR.
  set (L := sorted_values (map Num (firstn k a))) in *.
  set (R := sorted_values (map Num (skipn (k + 1) a))) in *.
  assert (Forall (fun x => x <= ak) L) as HloL
      by (eapply Permutation_Forall; [symmetry; exact HpL | exact Hlo]).
  assert (Forall (fun x => ak <= x) R) as HhiR
      by (eapply Permutation_Forall; [symmetry; exact HpR | exact Hhi]).
  rewrite Forall_forall in HloL, HhiR.
  assert (StronglySorted Qcle (L ++ ak :: R)) as HsT.
  { apply StronglySorted_app; auto.
    - constructor; auto. now apply Forall_forall.
    - intros x y Hx [<- | Hy]; auto.
      eapply Qcle_trans; [apply HloL | apply HhiR]; auto. }
  assert (s = L ++ ak :: R) as Es.
  { apply sorted_perm_unique; auto.
    rewrite <- Hp. rewrite (split_at a k) at 1 by lia. fold ak.
    apply Permutation_app; [now symmetry |].
    constructor. now symmetry. }
  assert (length L = k) as HlenL.
  { rewrite (Permutation_length HpL), length_firstn. lia. }
  assert (R <> []) as HR.
  { intros E. rewrite E in HpR.
    apply Permutation_nil in HpR. apply (f_equal (@length Qc)) in HpR.
    rewrite length_skipn in HpR. simpl in HpR. lia. }
  assert (nth k s 0 = ak) as ->.
  { rewrite Es, app_nth2 by lia. rewrite HlenL, Nat.sub_diag. reflexivity. }
  assert (nth (k + 1) s 0 = nth 0 R 0) as ->.
  { rewrite Es, app_nth2 by lia. rewrite HlenL.
    replace (k + 1 - k)%nat with 1%nat by lia. reflexivity. }
  split.
  - destruct (max_Num (firstn (k + 1) a)) as (M & -> & HM).
    { rewrite firstn_snoc by lia. now destruct (firstn k a). }
    do 2 f_equal. eapply greatest_unique; [reflexivity | exact HM |].
    rewrite firstn_snoc by lia. fold ak. split.
    + apply in_or_app. right. now left.
    + apply Forall_app. split; [exact Hlo |].
      constructor; [apply Qcle_refl | constructor].
  - destruct (min_Num (skipn (k + 1) a)) as (m & -> & Hm).
    { intros E. rewrite E in HpR. symmetry in HpR.
      apply Permutation_nil in HpR. auto. }
    do 2 f_equal. eapply least_unique; [symmetry; exact HpR | exact Hm |].
    now apply sorted_least.
Qed.

(** ** Quantiles *)

Lemma floor_index (n : nat) (p : Qc) :
  (2 <= n)%nat -> 0 < p -> p < 1 ->
  let i := ofnat (n - 1) * p in
  let i0 := Z.to_nat (floor i) in
  (i0 + 1 < n)%nat /\ ofnat i0 <= i /\ i < ofnat i0 + 1.
Proof.
  intros Hn Hp0 Hp1 i i0.
  assert (0 <= floor i)%Z as Hfl0.
  { unfold floor. rewrite <- (Qfloor_Z 0). apply Qfloor_resp_le.
    subst i. qc2q. apply Qmult_le_0_compat; [| lra].
    change 0%Q with (inject_Z 0). rewrite <- Zle_Qle. lia. }
  assert (floor i < Z.of_nat (n - 1))%Z as Hfl1.
  { rewrite Zlt_Qlt. eapply Qle_lt_trans; [apply Qfloor_le |].
    subst i. qc2q.
    assert (0 < inject_Z (Z.of_nat (n - 1)))%Q
      by (change 0%Q with (inject_Z 0); rewrite <- Zlt_Qlt; lia).
    nra. }
  assert (ofnat i0 = ofZ (floor i)) as Hi0
      by (unfold ofnat, i0; rewrite Z2Nat.id; auto).
  split; [unfold i0; lia |]. rewrite Hi0. split.
  - unfold floor. qc2q. apply Qfloor_le.
  - unfold floor. qc2q.
    pose proof (Qlt_floor i) as H. rewrite inject_Z_plus in H. exact H.
Qed.

(** The value d3.quantile computes, read off the ordered sample. *)
Definition quantile_sorted (s : list Qc) (p : Qc) : option Qc :=
  let n := length s in
  if Nat.eqb n 0 then None
  else if qc_leb p 0 || Nat.ltb n 2 then Some (nth 0 s 0)
  else if qc_leb 1 p then Some (nth (n - 1) s 0)
  else
    let i := ofnat (n - 1) * p in
    let i0 := Z.to_nat (floor i) in
    Some (nth i0 s 0 + (nth (i0 + 1) s 0 - nth i0 s 0) * (i - ofnat i0)).

Lemma quantile_closed (l : list number) (p : Qc) :
  d3.quantile l p = option_map Num (quantile_sorted (sorted_values l) p).
Proof.
  destruct (sorted_values_spec l) as (Hsort & Hs & Hperm).
  unfold d3.quantile, quantile_sorted, d3.quickselect.
  rewrite Hsort. rewrite numbers_finite, length_map.
  rewrite (Permutation_length Hperm).
  set (f := finite l) in *. set (s := sorted_values l) in *.
  destruct (Nat.eqb (length f) 0) eqn:En; [reflexivity |].
  apply Nat.eqb_neq in En.
  assert (f <> []) as Hf by (destruct f; simpl in En; congruence).
  assert (s <> []) as Hsne
      by (intros E; rewrite E in Hperm; apply Permutation_nil in Hperm; auto).
  destruct (qc_leb p 0 || Nat.ltb (length f) 2) eqn:E1.
  { destruct (min_Num f Hf) as (m & -> & Hm). simpl. do 2 f_equal.
    symmetry. eapply least_unique; [exact Hperm | | exact Hm].
    now apply sorted_least. }
  apply orb_false_iff in E1. destruct E1 as [Ep0 Elen].
  apply qc_leb_gt in Ep0. apply Nat.ltb_ge in Elen.
  destruct (qc_leb 1 p) eqn:E2.
  { destruct (max_Num f Hf) as (m & -> & Hm). simpl. do 2 f_equal.
    symmetry. rewrite <- (Permutation_length Hperm).
    eapply greatest_unique; [exact Hperm | | exact Hm].
    now apply sorted_greatest. }
  apply qc_leb_gt in E2.
  destruct (floor_index (length f) p Elen Ep0 E2) as (Hi0 & _).
  set (i0 := Z.to_nat (floor (ofnat (length f - 1) * p))) in *.
  rewrite <- (Permutation_length Hperm) in Hi0.
  rewrite firstn_map, skipn_map.
  destruct (max_Num (firstn (i0 + 1) s)) as (M & -> & HM).
  { intros E. apply (f_equal (@length Qc)) in E.
    rewrite length_firstn in E. simpl in E. lia. }
  destruct (min_Num (skipn (i0 + 1) s)) as (m & -> & Hm).
  { intros E. apply (f_equal (@length Qc)) in E.
    rewrite length_skipn in E. simpl in E. lia. }
  assert (M = nth i0 s 0) as ->.
  { eapply greatest_unique; [reflexivity | exact HM |].
    apply firstn_greatest; auto; lia. }
  assert (m = nth (i0 + 1) s 0) as ->.
  { eapply least_unique; [reflexivity | exact Hm |].
    apply skipn_least; auto. }
  reflexivity.
Qed.

(** d3.quantile looks only at the finite values, not at their order. *)
Lemma quantile_perm (l l' : list number) (p : Qc) :
  Permutation (finite l) (finite l') -> d3.quantile l p = d3.quantile l' p.
Proof.
  intros H. rewrite !quantile_closed. now rewrite (sorted_values_perm l l').
Qed.

Lemma ofZ_this (z : Z) : (this (ofZ z) == inject_Z z)%Q.
Proof. unfold ofZ. cbn [this Q2Qc]. apply Qred_correct. Qed.

Lemma floor_ofZ (z : Z) : floor (ofZ z) = z.
Proof.
  unfold floor. rewrite <- (Qfloor_Z z) at 2.
  apply Z.le_antisymm; apply Qfloor_resp_le; rewrite ofZ_this; apply Qle_refl.
Qed.

(** Off the integers the ceiling is one above the floor. *)
Lemma ceil_floor (x : Qc) :
  x = ofZ (floor x) \/ ceil x = (floor x + 1)%Z.
Proof.
  destruct (Qc_eq_dec x (ofZ (floor x))) as [E | N]; [now left | right].
  unfold ceil, floor in *.
  pose proof (Qfloor_le x) as H1. pose proof (Qlt_floor x) as H2.
  pose proof (Qle_ceiling x) as H3. pose proof (Qceiling_lt x) as H4.
  assert (inject_Z (Qfloor x) < x)%Q as H1'.
  { apply Qle_lteq in H1. destruct H1 as [H1 | H1]; [exact H1 |].
    exfalso. apply N. apply Qc_is_canon. rewrite ofZ_this. now symmetry. }
  assert (Qfloor x < Qceiling x)%Z
    by (rewrite Zlt_Qlt; eapply Qlt_le_trans; eauto).
  assert (Qceiling x - 1 < Qfloor x + 1)%Z
    by (rewrite Zlt_Qlt; eapply Qlt_trans; eauto).
  lia.
Qed.

(** The interpolation rule in the words of the specification:
    [h = p * (n - 1)], result
    [v[floor h] + (h - floor h) * (v[ceil h] - v[floor h])]. *)
Definition interpolated (v : list Qc) (p : Qc) : Qc :=
  let h := p * ofnat (length v - 1) in
  let lo := nth (Z.to_nat (floor h)) v 0 in
  let hi := nth (Z.to_nat (ceil h)) v 0 in
  lo + (h - ofZ (floor h)) * (hi - lo).

Lemma interpolated_integer (v : list Qc) (p : Qc) (k : nat) :
  p * ofnat (length v - 1) = ofnat k -> interpolated v p = nth k v 0.
Proof.
  intros H. unfold interpolated. rewrite H. unfold ofnat.
  rewrite floor_ofZ, Nat2Z.id. ring.
Qed.

Lemma quantile_sorted_interpolated (v : list Qc) (p : Qc) :
  v <> [] -> 0 <= p -> p <= 1 ->
  quantile_sorted v p = Some (interpolated v p).
Proof.
  intros Hv Hp0 Hp1. unfold quantile_sorted.
  assert (1 <= length v)%nat as Hlen by (destruct v; simpl; [congruence | lia]).
  destruct (Nat.eqb (length v) 0) eqn:En; [apply Nat.eqb_eq in En; lia |].
  destruct (qc_leb p 0 || Nat.ltb (length v) 2) eqn:E1.
  { f_equal. symmetry. apply interpolated_integer.
    apply orb_true_iff in E1. destruct E1 as [E1 | E1].
    - apply qc_leb_le in E1.
      assert (p = 0) as -> by (now apply Qcle_antisym).
      change (ofnat 0) with 0. ring.
    - apply Nat.ltb_lt in E1.
      replace (length v - 1)%nat with 0%nat by lia.
      change (ofnat 0) with 0. ring. }
  apply orb_false_iff in E1. destruct E1 as [Ep0 Elen].
  apply qc_leb_gt in Ep0. apply Nat.ltb_ge in Elen.
  destruct (qc_leb 1 p) eqn:E2.
  { f_equal. symmetry. apply interpolated_integer.
    apply qc_leb_le in E2.
    assert (p = 1) as -> by (now apply Qcle_antisym). ring. }
  apply qc_leb_gt in E2. f_equal.
  destruct (floor_index (length v) p Elen Ep0 E2) as (Hi0 & Hlo & Hhi).
  unfold interpolated.
  replace (p * ofnat (length v - 1)) with (ofnat (length v - 1) * p) by ring.
  set (h := ofnat (length v - 1) * p) in *.
  assert (0 <= floor h)%Z as Hfl.
  { unfold floor. rewrite <- (Qfloor_Z 0). apply Qfloor_resp_le.
    eapply Qle_trans; [| exact Hlo]. unfold ofnat. rewrite ofZ_this.
    change (inject_Z 0) with (inject_Z (Z.of_nat 0)). rewrite <- Zle_Qle. lia. }
  assert (ofnat (Z.to_nat (floor h)) = ofZ (floor h)) as Hof
      by (unfold ofnat; now rewrite Z2Nat.id).
  rewrite Hof. destruct (ceil_floor h) as [E | E].
  - rewrite <- E. ring.
  - rewrite E. rewrite Z2Nat.inj_add by lia. change (Z.to_nat 1) with 1%nat.
    ring.
Qed.

(** C1. On an ascending array of finite values d3.quantile follows the
    interpolation rule for every [p] in [0, 1]; a single value is
    returned for every [p]; the values 10, 20, 30, 40 have quartiles
    17.5, 25 and 32.5, also through the box-plot reducer. *)
Theorem quantile_interpolates :
  (forall (v : list Qc) (p : Qc),
      v <> [] -> Sorted Qcle v -> 0 <= p -> p <= 1 ->
      d3.quantile (js_sort d3.ascending (map Num v)) p
      = Some (Num (interpolated v p))
      /\ d3.quantile (map Num v) p = Some (Num (interpolated v p)))
  /\ (forall (x p : Qc), d3.quantile [Num x] p = Some (Num x))
  /\ (let d := map (fun a => {| age := Num (ofZ a); hours_per_week := NaN;
                               education_num := NaN; capital_gain := NaN;
                               capital_loss := NaN; income := "<=50K";
                               education := "N/A"; occupation := "N/A";
                               sex := "N/A"; marital_status := "N/A" |})
                    [30; 10; 40; 20]%Z in
      q1 (sumstat age d) = Some (Num (Q2Qc (35 # 2)))
      /\ median (sumstat age d) = Some (Num (ofZ 25))
      /\ q3 (sumstat age d) = Some (Num (Q2Qc (65 # 2)))).
Proof.
  split; [| split].
  - intros v p Hv Hs Hp0 Hp1.
    apply Sorted_StronglySorted in Hs; [| exact Qcle_trans].
    assert (d3.quantile (map Num v) p = Some (Num (interpolated v p))) as H.
    { rewrite quantile_closed, sorted_values_id by assumption.
      now rewrite quantile_sorted_interpolated. }
    split; [| exact H]. rewrite <- H. apply quantile_perm.
    apply finite_perm, js_sort_perm.
  - intros x p. change [Num x] with (map Num [x]).
    rewrite quantile_closed, (sorted_values_id [x]) by repeat constructor.
    unfold quantile_sorted. simpl.
    destruct (qc_leb p 0); reflexivity.
  - repeat split; vm_compute; reflexivity.
Qed.

Lemma quantile_interpolates_witness :
  d3.quantile (map Num [ofZ 10; ofZ 20; ofZ 30; ofZ 40]) (Q2Qc (1 # 4))
  = Some (Num (interpolated [ofZ 10; ofZ 20; ofZ 30; ofZ 40] (Q2Qc (1 # 4)))).
Proof.
  apply (proj1 quantile_interpolates).
  - discriminate.
  - repeat constructor; vm_compute; discriminate.
  - vm_compute; discriminate.
  - vm_compute; discriminate.
Defined.

(** ** Five-number summaries *)

Lemma interp_bounds (x y t : Qc) :
  x <= y -> 0 <= t -> t <= 1 ->
  x <= x + (y - x) * t /\ x + (y - x) * t <= y.
Proof. intros. qc2q. split; nra. Qed.

Lemma interp_mono (x y t u : Qc) :
  x <= y -> t <= u -> x + (y - x) * t <= x + (y - x) * u.
Proof. intros. qc2q. nra. Qed.

Lemma frac_bounds (i k : Qc) : k <= i -> i < k + 1 -> 0 <= i - k /\ i - k <= 1.
Proof. intros. qc2q. split; lra. Qed.

Lemma frac_mono (i j k : Qc) : i <= j -> i - k <= j - k.
Proof. intros. qc2q. lra. Qed.

Lemma scale_mono (n p q : Qc) : 0 <= n -> p <= q -> n * p <= n * q.
Proof. intros. qc2q. nra. Qed.

Section SortedSample.
Variable s : list Qc.
Hypothesis s_sorted : StronglySorted Qcle s.
Hypothesis s_nonempty : s <> [].

Let n := length s.

Lemma sample_length : (1 <= n)%nat.
Proof. subst n. destruct s; simpl; [congruence | lia]. Qed.

(** Every quantile lies between the smallest and the largest value. *)
Lemma quantile_sorted_bounds (p : Qc) :
  exists a, quantile_sorted s p = Some a
            /\ nth 0 s 0 <= a /\ a <= nth (n - 1) s 0.
Proof.
  pose proof sample_length as Hlen. unfold quantile_sorted. fold n.
  destruct (Nat.eqb n 0) eqn:En; [apply Nat.eqb_eq in En; lia |].
  destruct (qc_leb p 0 || Nat.ltb n 2) eqn:E1.
  { eexists. split; [reflexivity |]. split; [apply Qcle_refl |].
    apply sorted_nth_le; auto; fold n; lia. }
  apply orb_false_iff in E1. destruct E1 as [Ep0 Elen].
  apply qc_leb_gt in Ep0. apply Nat.ltb_ge in Elen.
  destruct (qc_leb 1 p) eqn:E2.
  { eexists. split; [reflexivity |]. split; [| apply Qcle_refl].
    apply sorted_nth_le; auto; fold n; lia. }
  apply qc_leb_gt in E2.
  destruct (floor_index n p Elen Ep0 E2) as (Hi0 & Hlo & Hhi).
  set (i := ofnat (n - 1) * p) in *.
  set (i0 := Z.to_nat (floor i)) in *.
  eexists. split; [reflexivity |].
  destruct (frac_bounds i (ofnat i0) Hlo Hhi) as [Ht0 Ht1].
  assert (nth i0 s 0 <= nth (i0 + 1) s 0) as Hstep
      by (apply sorted_nth_le; auto; fold n; lia).
  destruct (interp_bounds _ _ _ Hstep Ht0 Ht1) as [Ha Hb].
  split.
  - eapply Qcle_trans; [| exact Ha]. apply sorted_nth_le; auto; fold n; lia.
  - eapply Qcle_trans; [exact Hb |]. apply sorted_nth_le; auto; fold n; lia.
Qed.

(** Inside (0, 1) the quantile grows with [p]. *)
Lemma quantile_sorted_mono (p q : Qc) :
  0 < p -> p <= q -> q < 1 ->
  exists a b, quantile_sorted s p = Some a /\ quantile_sorted s q = Some b
              /\ a <= b.
Proof.
  intros Hp Hpq Hq. pose proof sample_length as Hlen.
  assert (0 < q) as Hq0 by (eapply Qclt_le_trans; eauto).
  assert (p < 1) as Hp1 by (eapply Qcle_lt_trans; eauto).
  unfold quantile_sorted. fold n.
  destruct (Nat.eqb n 0) eqn:En; [apply Nat.eqb_eq in En; lia |].
  rewrite (proj2 (qc_leb_gt p 0) Hp), (proj2 (qc_leb_gt q 0) Hq0).
  rewrite (proj2 (qc_leb_gt 1 p) Hp1), (proj2 (qc_leb_gt 1 q) Hq).
  simpl. destruct (Nat.ltb n 2) eqn:Elen.
  { do 2 eexists. repeat split. apply Qcle_refl. }
  apply Nat.ltb_ge in Elen.
  destruct (floor_index n p Elen Hp Hp1) as (Hi0 & Hilo & Hihi).
  destruct (floor_index n q Elen Hq0 Hq) as (Hj0 & Hjlo & Hjhi).
  set (i := ofnat (n - 1) * p) in *. set (j := ofnat (n - 1) * q) in *.
  set (i0 := Z.to_nat (floor i)) in *. set (j0 := Z.to_nat (floor j)) in *.
  do 2 eexists. split; [reflexivity |]. split; [reflexivity |].
  assert (i <= j) as Hij.
  { apply scale_mono; auto. apply Qclt_le_weak, ofnat_pos. lia. }
  assert (floor i <= floor j)%Z as Hfl by (apply Qfloor_resp_le; exact Hij).
  assert (i0 <= j0)%nat as Hij0 by (unfold i0, j0; lia).
  destruct (frac_bounds i (ofnat i0) Hilo Hihi) as [Hti0 Hti1].
  destruct (frac_bounds j (ofnat j0) Hjlo Hjhi) as [Htj0 Htj1].
  assert (nth i0 s 0 <= nth (i0 + 1) s 0) as Hsi
      by (apply sorted_nth_le; auto; fold n; lia).
  assert (nth j0 s 0 <= nth (j0 + 1) s 0) as Hsj
      by (apply sorted_nth_le; auto; fold n; lia).
  destruct (Nat.eq_dec i0 j0) as [E | N].
  - rewrite <- E. apply interp_mono; auto. now apply frac_mono.
  - destruct (interp_bounds _ _ _ Hsi Hti0 Hti1) as [_ Ha].
    destruct (interp_bounds _ _ _ Hsj Htj0 Htj1) as [Hb _].
    eapply Qcle_trans; [exact Ha |]. eapply Qcle_trans; [| exact Hb].
    apply sorted_nth_le; auto; fold n; lia.
Qed.
End SortedSample.

(** A summary whose five values are finite and in order. *)
Definition ordered_summary (v : Summary) : Prop :=
  exists lo a m b hi : Qc,
    min v = Some (Num lo) /\ q1 v = Some (Num a) /\ median v = Some (Num m)
    /\ q3 v = Some (Num b) /\ max v = Some (Num hi)
    /\ lo <= a /\ a <= m /\ m <= b /\ b <= hi.

Lemma sumstat_quantile (f : Row -> number) (d : list Row) (p : Qc) :
  d3.quantile (js_sort d3.ascending (map f d)) p =
  option_map Num (quantile_sorted (sorted_values (map f d)) p).
Proof.
  rewrite <- quantile_closed. apply quantile_perm.
  apply finite_perm, js_sort_perm.
Qed.

Lemma sumstat_ordered (f : Row -> number) (d : list Row) :
  finite (map f d) <> [] -> ordered_summary (sumstat f d).
Proof.
  intros Hne. unfold ordered_summary, sumstat. simpl.
  rewrite !sumstat_quantile, min_numbers, max_numbers, numbers_finite.
  destruct (sorted_values_spec (map f d)) as (_ & Hs & Hperm).
  set (s := sorted_values (map f d)) in *.
  assert (s <> []) as Hsne
      by (intros E; rewrite E in Hperm; apply Permutation_nil in Hperm; auto).
  destruct (min_Num _ Hne) as (lo & -> & Hlo).
  destruct (max_Num _ Hne) as (hi & -> & Hhi).
  assert (lo = nth 0 s 0) as ->
      by (symmetry; eapply least_unique; [exact Hperm | | exact Hlo];
          now apply sorted_least).
  assert (hi = nth (length s - 1) s 0) as ->
      by (symmetry; eapply greatest_unique; [exact Hperm | | exact Hhi];
          now apply sorted_greatest).
  destruct (quantile_sorted_mono s Hs Hsne (Q2Qc (1 # 4)) (Q2Qc (1 # 2)))
    as (a & m & Ha & Hm & Ham); try reflexivity; try discriminate.
  destruct (quantile_sorted_mono s Hs Hsne (Q2Qc (1 # 2)) (Q2Qc (3 # 4)))
    as (m' & b & Hm' & Hb & Hmb); try reflexivity; try discriminate.
  rewrite Hm in Hm'. inversion Hm'; subst m'.
  destruct (quantile_sorted_bounds s Hs Hsne (Q2Qc (1 # 4)))
    as (a' & Ha' & Hlo_a & _).
  rewrite Ha in Ha'. inversion Ha'; subst a'.
  destruct (quantile_sorted_bounds s Hs Hsne (Q2Qc (3 # 4)))
    as (b' & Hb' & _ & Hb_hi).
  rewrite Hb in Hb'. inversion Hb'; subst b'.
  rewrite Ha, Hm, Hb. simpl.
  exists (nth 0 s 0), a, m, b, (nth (length s - 1) s 0).
  repeat split; auto.
Qed.

Lemma gainsData_finite (data : list Row) (g : list Row) :
  (forall r, In r g -> In r (CapitalGainsChart.gainsData data)) ->
  g <> [] -> finite (map capital_gain g) <> [].
Proof.
  intros Hg Hne. destruct g as [| r g]; [congruence |].
  assert (In r (CapitalGainsChart.gainsData data)) as Hr by (apply Hg; now left).
  unfold CapitalGainsChart.gainsData in Hr. apply filter_In in Hr.
  destruct Hr as [_ Hr]. simpl.
  destruct (capital_gain r); [discriminate | discriminate].
Qed.

(** C4. The box-plot reducer, run on a group that holds at least one
    finite value of the field, returns five finite values with
    min <= q1 <= median <= q3 <= max; in the capital-gain chart this
    holds for the summary of every income key. *)
Theorem five_number_summary_ordered :
  (forall (f : Row -> number) (d : list Row),
      finite (map f d) <> [] -> ordered_summary (sumstat f d))
  /\ (forall data : list Row,
         Forall (fun e => ordered_summary (value e))
                (CapitalGainsChart.sumstatArray data)).
Proof.
  split; [exact sumstat_ordered |].
  intros data. apply Forall_forall. intros e He.
  unfold CapitalGainsChart.sumstatArray, entries, d3.rollup in He.
  rewrite map_map in He. apply in_map_iff in He.
  destruct He as ([k g] & <- & Hin). simpl.
  apply group_In in Hin. destruct Hin as (-> & Hne & _).
  apply sumstat_ordered. apply (gainsData_finite data); auto.
  intros r Hr. unfold members in Hr. apply filter_In in Hr. tauto.
Qed.

Lemma five_number_summary_ordered_witness :
  ordered_summary
    (sumstat age
       [ {| age := Num (ofZ 40); hours_per_week := NaN; education_num := NaN;
            capital_gain := NaN; capital_loss := NaN; income := ">50K";
            education := "N/A"; occupation := "N/A"; sex := "N/A";
            marital_status := "N/A" |};
         {| age := Num (ofZ 25); hours_per_week := NaN; education_num := NaN;
            capital_gain := NaN; capital_loss := NaN; income := ">50K";
            education := "N/A"; occupation := "N/A"; sex := "N/A";
            marital_status := "N/A" |} ]).
Proof.
  apply (proj1 five_number_summary_ordered). simpl. discriminate.
Defined.

(** ** Non-numeric cells *)

(** The row has a number in field [f]. *)
Definition valid (f : Row -> number) (r : Row) : bool := negb (isNaN (f r)).

Lemma finite_filter_valid (f : Row -> number) (d : list Row) :
  finite (map f (filter (valid f) d)) = finite (map f d).
Proof.
  induction d as [| r d IH]; simpl; auto.
  unfold valid at 1. destruct (f r) eqn:E; simpl; rewrite ?E; congruence.
Qed.

Lemma sumstat_valid (f : Row -> number) (d : list Row) :
  sumstat f d = sumstat f (filter (valid f) d).
Proof.
  unfold sumstat.
  assert (forall p, d3.quantile (js_sort d3.ascending (map f d)) p =
                    d3.quantile (js_sort d3.ascending
                                   (map f (filter (valid f) d))) p) as Hq.
  { intros p. rewrite !sumstat_quantile. f_equal. f_equal.
    apply sorted_values_perm. now rewrite finite_filter_valid. }
  rewrite !Hq.
  rewrite (min_numbers (map f d)), (max_numbers (map f d)).
  rewrite (min_numbers (map f (filter _ d))), (max_numbers (map f (filter _ d))).
  now rewrite !numbers_finite, finite_filter_valid.
Qed.

Definition ageRow (age : number) (income : string) : Row :=
  {| age := age; hours_per_week := NaN; education_num := NaN;
     capital_gain := NaN; capital_loss := NaN; income := income;
     education := "N/A"; occupation := "N/A"; sex := "N/A";
     marital_status := "N/A" |}.

(** C2. A row whose numeric field is [NaN] has no part in the numeric
    aggregates: the box-plot reducer and the KPI median give what they
    give on the rows with a number in that field, and the capital-gain
    chart holds no such row; the quantile is the same for every order
    in which the sort may leave the values.  The row is still counted by
    countBy and rateBy.  With ages NaN, 30, 10 the median is 20 and the minimum 10. *)
Theorem nan_excluded_from_numeric (f : Row -> number) (d : list Row) :
  sumstat f d = sumstat f (filter (valid f) d)
  /\ (forall (arranged : list number) (p : Qc),
         Permutation arranged (map f d) ->
         d3.quantile arranged p = d3.quantile (map f (filter (valid f) d)) p)
  /\ App.medianAge (App.kpi d) = App.medianAge (App.kpi (filter (valid age) d))
  /\ Forall (fun r => valid capital_gain r = true) (CapitalGainsChart.gainsData d)
  /\ (forall keyOf, list_sum (map value (countBy d keyOf)) = length d)
  /\ (forall keyOf matchPredicate,
         list_sum (map total (rateBy d keyOf matchPredicate)) = length d)
  /\ (let rows := [ageRow NaN "<=50K"; ageRow (Num (ofZ 30)) "<=50K";
                   ageRow (Num (ofZ 10)) "<=50K"] in
      median (sumstat age rows) = Some (Num (ofZ 20))
      /\ min (sumstat age rows) = Some (Num (ofZ 10))
      /\ App.medianAge (App.kpi rows) = Some (Num (ofZ 20))
      /\ countBy rows income = [Build_Entry "<=50K" 3%nat]).
Proof.
  split; [apply sumstat_valid |]. split; [| split; [| split; [| split; [| split]]]].
  - intros arranged p Hp. apply quantile_perm.
    rewrite finite_filter_valid. now apply finite_perm.
  - unfold App.kpi, d3.median. simpl. apply quantile_perm.
    now rewrite finite_filter_valid.
  - apply Forall_forall. intros r Hr.
    unfold CapitalGainsChart.gainsData in Hr. apply filter_In in Hr.
    destruct Hr as [_ Hr]. unfold valid.
    destruct (capital_gain r); [discriminate | reflexivity].
  - intros keyOf. rewrite countBy_buckets, map_map. simpl.
    apply members_length_sum; [apply first_seen_NoDup |].
    intros v Hv. apply first_seen_In. now apply in_map.
  - intros keyOf mp. unfold rateBy. rewrite group_buckets, !map_map. simpl.
    apply members_length_sum; [apply first_seen_NoDup |].
    intros v Hv. apply first_seen_In. now apply in_map.
  - repeat split; vm_compute; reflexivity.
Qed.

Lemma nan_excluded_from_numeric_witness :
  d3.quantile [Num (ofZ 30); NaN; Num (ofZ 10)] (Q2Qc (1 # 2))
  = d3.quantile
      (map age (filter (valid age)
                  [ageRow NaN "<=50K"; ageRow (Num (ofZ 30)) "<=50K";
                   ageRow (Num (ofZ 10)) "<=50K"]))
      (Q2Qc (1 # 2)).
Proof.
  apply (proj1 (proj2 (nan_excluded_from_numeric age
           [ageRow NaN "<=50K"; ageRow (Num (ofZ 30)) "<=50K";
            ageRow (Num (ofZ 10)) "<=50K"]))).
  simpl. apply perm_swap.
Defined.

(** ** The empty record set *)

(** C3, counterexample.  With no rows the high-income share is 0 / 0,
    which is [NaN] and not 0. *)
Lemma kpi_empty_not_zero :
  App.highIncomePercent (App.kpi []) <> Num (ofZ 0).
Proof. vm_compute. discriminate. Qed.

(** C3, as the code has it.  With no rows the KPI block holds the count
    0, the share [NaN] and an undefined median; countBy, rateBy and the
    chart arrays are empty; every function returns. *)
Theorem kpi_empty :
  App.kpi [] = {| App.total := 0; App.highIncomePercent := NaN;
                  App.medianAge := None |}
  /\ (forall keyOf, countBy [] keyOf = [])
  /\ (forall keyOf matchPredicate, rateBy [] keyOf matchPredicate = [])
  /\ IncomeDistributionChart.incomeData [] = []
  /\ EducationChart.educationRates [] = []
  /\ OccupationChart.occupationRates [] = []
  /\ SexChart.sexRates [] = []
  /\ MaritalStatusChart.maritalRates [] = []
  /\ AgeChart.sumstatArray [] = []
  /\ CapitalGainsChart.sumstatArray [] = [].
Proof. repeat split. Qed.

(** ** The sort key of the education chart *)

(** All rows with the same education string carry the same number. *)
Definition consistent_levels (data : list Row) : Prop :=
  forall r r', In r data -> In r' data ->
               education r = education r' -> education_num r = education_num r'.

(** The aggregate built for the group of key [k]. *)
Definition educationRate_of (data : list Row) (k : string)
  : EducationChart.EducationRate :=
  let values := members EducationChart.keyOf data k in
  {| EducationChart.education := k;
     EducationChart.rate :=
       length_ratio (matched isHighIncome values) (length values);
     EducationChart.total := length values;
     EducationChart.educationNum := EducationChart.firstEducationNum values |}.

Lemma unsorted_buckets (data : list Row) :
  EducationChart.unsorted data =
  map (educationRate_of data) (first_seen (map EducationChart.keyOf data)).
Proof.
  unfold EducationChart.unsorted. rewrite group_buckets, map_map. reflexivity.
Qed.

Lemma educationRates_In (data : list Row) (e : EducationChart.EducationRate) :
  In e (EducationChart.educationRates data) ->
  e = educationRate_of data (EducationChart.education e)
  /\ In (EducationChart.education e) (map EducationChart.keyOf data).
Proof.
  intros He. unfold EducationChart.educationRates in He.
  apply (Permutation_in _ (js_sort_perm _ _)) in He.
  rewrite unsorted_buckets in He. apply in_map_iff in He.
  destruct He as (k & <- & Hk). simpl. split; [reflexivity |].
  now apply first_seen_In.
Qed.

(** Different education strings carry different numbers, and every
    number is finite. *)
Definition distinct_levels (data : list Row) : Prop :=
  forall r r', In r data -> In r' data ->
               education_num r = education_num r' -> education r = education r'.

Definition finite_levels (data : list Row) : Prop :=
  Forall (fun r => isNaN (education_num r) = false) data.

Lemma educationRate_first (data : list Row) (k : string) :
  In k (map EducationChart.keyOf data) ->
  exists r, In r data /\ education r = k
            /\ EducationChart.educationNum (educationRate_of data k)
               = education_num r.
Proof.
  intros Hk. apply (members_nonempty EducationChart.keyOf) in Hk.
  unfold educationRate_of. simpl.
  destruct (members EducationChart.keyOf data k) as [| r rest] eqn:E;
    [congruence |].
  assert (In r (members EducationChart.keyOf data k)) as Hr
      by (rewrite E; now left).
  unfold members in Hr. apply filter_In in Hr. destruct Hr as [Hin Hkr].
  apply String.eqb_eq in Hkr. exists r. auto.
Qed.

Lemma educationRate_of_perm (data data' : list Row) (k : string) :
  Permutation data data' -> consistent_levels data ->
  In k (map EducationChart.keyOf data) ->
  educationRate_of data k = educationRate_of data' k.
Proof.
  intros Hp Hc Hk.
  assert (In k (map EducationChart.keyOf data')) as Hk'
      by (eapply Permutation_in; [apply Permutation_map; exact Hp | exact Hk]).
  destruct (educationRate_first data k Hk) as (r & Hr & Hrk & Hnum).
  destruct (educationRate_first data' k Hk') as (r' & Hr' & Hrk' & Hnum').
  assert (Permutation (members EducationChart.keyOf data k)
                      (members EducationChart.keyOf data' k)) as Hm
      by (apply filter_perm; exact Hp).
  assert (EducationChart.educationNum (educationRate_of data k) =
          EducationChart.educationNum (educationRate_of data' k)) as Hn.
  { rewrite Hnum, Hnum'. apply Hc; auto; [| congruence].
    eapply Permutation_in; [symmetry; exact Hp | exact Hr']. }
  unfold educationRate_of in *. simpl in Hn. rewrite Hn.
  unfold matched. rewrite (Permutation_length Hm).
  rewrite (Permutation_length (filter_perm isHighIncome _ _ Hm)).
  reflexivity.
Qed.

Lemma unsorted_perm (data data' : list Row) :
  Permutation data data' -> consistent_levels data ->
  Permutation (EducationChart.unsorted data) (EducationChart.unsorted data').
Proof.
  intros Hp Hc. rewrite !unsorted_buckets.
  rewrite (map_ext_in (educationRate_of data) (educationRate_of data')).
  - apply Permutation_map. apply NoDup_Permutation.
    + apply first_seen_NoDup.
    + apply first_seen_NoDup.
    + intros k. rewrite !first_seen_In. split; intros Hk.
      * eapply Permutation_in; [apply Permutation_map; exact Hp | exact Hk].
      * eapply Permutation_in;
          [apply Permutation_map; symmetry; exact Hp | exact Hk].
  - intros k Hk. apply -> first_seen_In in Hk.
    now apply educationRate_of_perm.
Qed.

Lemma before_byEducationNum (a b : EducationChart.EducationRate) (x y : Qc) :
  EducationChart.educationNum a = Num x ->
  EducationChart.educationNum b = Num y ->
  (before EducationChart.byEducationNum a b = true <-> x <= y).
Proof.
  intros Ha Hb. unfold before, EducationChart.byEducationNum.
  rewrite Ha, Hb. simpl. rewrite qc_leb_le. split; intro H; qc2q; lra.
Qed.

Lemma unsorted_first (data : list Row) (e : EducationChart.EducationRate) :
  In e (EducationChart.unsorted data) ->
  e = educationRate_of data (EducationChart.education e)
  /\ exists r, In r data /\ education r = EducationChart.education e
               /\ EducationChart.educationNum e = education_num r.
Proof.
  intros He. rewrite unsorted_buckets in He. apply in_map_iff in He.
  destruct He as (k & <- & Hk). apply -> first_seen_In in Hk. simpl.
  split; [reflexivity |]. now apply educationRate_first.
Qed.

Lemma unsorted_finite (data : list Row) (e : EducationChart.EducationRate) :
  finite_levels data -> In e (EducationChart.unsorted data) ->
  exists x, EducationChart.educationNum e = Num x.
Proof.
  intros Hf He. destruct (unsorted_first data e He) as (_ & r & Hr & _ & Hn).
  unfold finite_levels in Hf. rewrite Forall_forall in Hf.
  specialize (Hf r Hr). rewrite Hn.
  destruct (education_num r) as [| x]; [discriminate | now exists x].
Qed.

Definition levelRow (education : string) (education_num : Z) : Row :=
  mkRow "<=50K" education "N/A" (Num (ofZ education_num)).

(** C10. The sort key of an education aggregate is the education.num of
    the first input row of its group.  When all rows of an education
    carry one number, that key is the number of every row of the group,
    and (the numbers being finite and different for different
    educations) the chart array is the same for every order of the
    input rows.  When they do not, the order of the chart depends on the
    order of the rows: two arrangements of the same three rows give two
    orders. *)
Theorem educationNum_of_first_row :
  (forall data : list Row,
      Forall (fun e =>
                exists r rest,
                  members EducationChart.keyOf data (EducationChart.education e)
                  = r :: rest
                  /\ EducationChart.educationNum e = education_num r)
             (EducationChart.educationRates data))
  /\ (forall data : list Row,
         consistent_levels data ->
         Forall (fun e =>
                   Forall (fun r => education r = EducationChart.education e ->
                                    education_num r = EducationChart.educationNum e)
                          data)
                (EducationChart.educationRates data))
  /\ (forall data data' : list Row,
         consistent_levels data -> distinct_levels data -> finite_levels data ->
         Permutation data data' ->
         EducationChart.educationRates data = EducationChart.educationRates data')
  /\ (let data := [levelRow "HS-grad" 9; levelRow "HS-grad" 13;
                   levelRow "Bachelors" 10] in
      let data' := [levelRow "HS-grad" 13; levelRow "HS-grad" 9;
                    levelRow "Bachelors" 10] in
      Permutation data data'
      /\ map EducationChart.education (EducationChart.educationRates data)
         = ["HS-grad"; "Bachelors"]%string
      /\ map EducationChart.education (EducationChart.educationRates data')
         = ["Bachelors"; "HS-grad"]%string).
Proof.
  assert (forall data e,
             In e (EducationChart.educationRates data) ->
             exists r rest,
               members EducationChart.keyOf data (EducationChart.education e)
               = r :: rest
               /\ EducationChart.educationNum e = education_num r) as Hfirst.
  { intros data e He. apply educationRates_In in He. destruct He as [He Hk].
    apply (members_nonempty EducationChart.keyOf) in Hk.
    destruct (members EducationChart.keyOf data (EducationChart.education e))
      as [| r rest] eqn:E; [congruence |].
    exists r, rest. split; [reflexivity |].
    rewrite He. unfold educationRate_of. simpl. now rewrite E. }
  split; [| split; [| split]].
  - intros data. apply Forall_forall. intros e He. now apply Hfirst.
  - intros data Hc. apply Forall_forall. intros e He.
    destruct (Hfirst data e He) as (r0 & rest & Hm & Hnum).
    assert (In r0 (members EducationChart.keyOf data (EducationChart.education e)))
      as Hr0 by (rewrite Hm; now left).
    unfold members in Hr0. apply filter_In in Hr0. destruct Hr0 as [Hin0 Hk0].
    apply String.eqb_eq in Hk0. unfold EducationChart.keyOf in Hk0.
    apply Forall_forall. intros r Hr Hed. rewrite Hnum.
    apply Hc; auto. congruence.
  - intros data data' Hc Hd Hf Hp. unfold EducationChart.educationRates.
    apply (js_sort_perm_eq _ (fun e => In e (EducationChart.unsorted data))).
    + intros a b Ha Hb.
      destruct (unsorted_finite data a Hf Ha) as [x Hx].
      destruct (unsorted_finite data b Hf Hb) as [y Hy].
      rewrite (before_byEducationNum a b x y), (before_byEducationNum b a y x)
        by auto.
      apply Qcle_total.
    + intros a b c Ha Hb Hc'.
      destruct (unsorted_finite data a Hf Ha) as [x Hx].
      destruct (unsorted_finite data b Hf Hb) as [y Hy].
      destruct (unsorted_finite data c Hf Hc') as [z Hz].
      rewrite (before_byEducationNum a b x y), (before_byEducationNum b c y z),
        (before_byEducationNum a c x z) by auto.
      apply Qcle_trans.
    + intros a b Ha Hb.
      destruct (unsorted_finite data a Hf Ha) as [x Hx].
      destruct (unsorted_finite data b Hf Hb) as [y Hy].
      rewrite (before_byEducationNum a b x y), (before_byEducationNum b a y x)
        by auto.
      intros Hxy Hyx. assert (x = y) as -> by (now apply Qcle_antisym).
      destruct (unsorted_first data a Ha) as (Ea & ra & Hra & Hka & Hna).
      destruct (unsorted_first data b Hb) as (Eb & rb & Hrb & Hkb & Hnb).
      assert (education ra = education rb) as Hk
          by (apply Hd; auto; congruence).
      rewrite Ea, Eb. f_equal. congruence.
    + apply Forall_forall. auto.
    + now apply unsorted_perm.
  - split; [apply perm_swap | split; vm_compute; reflexivity].
Qed.

Lemma educationNum_of_first_row_witness :
  Forall (fun e =>
            Forall (fun r => education r = EducationChart.education e ->
                             education_num r = EducationChart.educationNum e)
                   [levelRow "HS-grad" 9; levelRow "Bachelors" 13;
                    levelRow "HS-grad" 9])
         (EducationChart.educationRates
            [levelRow "HS-grad" 9; levelRow "Bachelors" 13;
             levelRow "HS-grad" 9]).
Proof.
  apply (proj1 (proj2 educationNum_of_first_row)).
  intros r r' Hr Hr' He.
  simpl in Hr, Hr'.
  destruct Hr as [<- | [<- | [<- | []]]];
    destruct Hr' as [<- | [<- | [<- | []]]];
    try reflexivity; vm_compute in He; discriminate.
Defined.

(** ** Ties in the sorted arrays *)

(** What [sort] does with each comparator on rates that are numbers:
    the array comes out in the order of the comparator, and the rows of
    one rate keep their places relative to each other. *)
Lemma byRateDescending_stable (l : list Rate) :
  Forall finite_rate l ->
  StronglySorted (fun a b => num_ge (rate a) (rate b) = true)
                 (js_sort byRateDescending l)
  /\ (forall q, filter (has_rate q) (js_sort byRateDescending l)
                = filter (has_rate q) l).
Proof.
  intros Hfin. split.
  - assert (StronglySorted (fun a b => before byRateDescending a b = true)
                           (js_sort byRateDescending l)) as Hs.
    { apply (js_sort_sorted byRateDescending finite_rate); auto.
      - intros a b [x Hx] [y Hy].
        rewrite (before_descending a b x y), (before_descending b a y x) by auto.
        destruct (Qcle_total x y); auto.
      - intros a b c [x Hx] [y Hy] [z Hz].
        rewrite (before_descending a b x y), (before_descending b c y z),
          (before_descending a c x z) by auto.
        intros. eapply Qcle_trans; eauto. }
    assert (Forall finite_rate (js_sort byRateDescending l)) as Hfs
        by (eapply Permutation_Forall; [symmetry; apply js_sort_perm | exact Hfin]).
    clear - Hs Hfs. induction Hs as [| a s Hs IH Ha]; constructor.
    + inversion Hfs; auto.
    + inversion Hfs as [| ? ? [x Hx] Hl]; subst.
      rewrite Forall_forall in *. intros b Hb.
      destruct (Hl b Hb) as [y Hy].
      specialize (Ha b Hb). rewrite (before_descending a b x y) in Ha by auto.
      rewrite Hx, Hy. simpl. now apply qc_leb_le.
  - intros q. apply js_sort_stable. intros a b Ha Hb.
    unfold has_rate in Ha, Hb.
    destruct (rate a) as [| x] eqn:Ex; [discriminate |].
    destruct (rate b) as [| y] eqn:Ey; [discriminate |].
    apply qc_eqb_eq in Ha, Hb. subst.
    apply (before_descending a b q q); auto. apply Qcle_refl.
Qed.

Lemma byRateAscending_stable (l : list Rate) :
  Forall finite_rate l ->
  StronglySorted (fun a b => num_ge (rate b) (rate a) = true)
                 (js_sort byRateAscending l)
  /\ (forall q, filter (has_rate q) (js_sort byRateAscending l)
                = filter (has_rate q) l).
Proof.
  intros Hfin. split.
  - assert (StronglySorted (fun a b => before byRateAscending a b = true)
                           (js_sort byRateAscending l)) as Hs.
    { apply (js_sort_sorted byRateAscending finite_rate); auto.
      - intros a b [x Hx] [y Hy].
        rewrite (before_byRateAscending a b x y),
          (before_byRateAscending b a y x) by auto.
        apply Qcle_total.
      - intros a b c [x Hx] [y Hy] [z Hz].
        rewrite (before_byRateAscending a b x y),
          (before_byRateAscending b c y z),
          (before_byRateAscending a c x z) by auto.
        apply Qcle_trans. }
    assert (Forall finite_rate (js_sort byRateAscending l)) as Hfs
        by (eapply Permutation_Forall; [symmetry; apply js_sort_perm | exact Hfin]).
    clear - Hs Hfs. induction Hs as [| a s Hs IH Ha]; constructor.
    + inversion Hfs; auto.
    + inversion Hfs as [| ? ? [x Hx] Hl]; subst.
      rewrite Forall_forall in *. intros b Hb.
      destruct (Hl b Hb) as [y Hy].
      specialize (Ha b Hb).
      rewrite (before_byRateAscending a b x y) in Ha by auto.
      rewrite Hx, Hy. simpl. now apply qc_leb_le.
  - intros q. apply js_sort_stable. intros a b Ha Hb.
    unfold has_rate in Ha, Hb.
    destruct (rate a) as [| x] eqn:Ex; [discriminate |].
    destruct (rate b) as [| y] eqn:Ey; [discriminate |].
    apply qc_eqb_eq in Ha, Hb. subst.
    apply (before_byRateAscending a b q q); auto. apply Qcle_refl.
Qed.

(** [e] has the finite education number [q]. *)
Definition has_level (q : Qc) (e : EducationChart.EducationRate) : bool :=
  match EducationChart.educationNum e with
  | Num r => qc_eqb r q
  | NaN => false
  end.

Lemma unsorted_names (data : list Row) :
  map EducationChart.education (EducationChart.unsorted data) =
  first_seen (map education data).
Proof.
  rewrite unsorted_buckets, map_map. unfold educationRate_of. simpl.
  apply map_id.
Qed.

Lemma byEducationNum_stable (data : list Row) :
  finite_levels data ->
  StronglySorted
    (fun a b => num_ge (EducationChart.educationNum b)
                       (EducationChart.educationNum a) = true)
    (EducationChart.educationRates data)
  /\ (forall q, filter (has_level q) (EducationChart.educationRates data)
                = filter (has_level q) (EducationChart.unsorted data)).
Proof.
  intros Hf. unfold EducationChart.educationRates.
  set (P := fun e : EducationChart.EducationRate =>
              exists x, EducationChart.educationNum e = Num x).
  assert (Forall P (EducationChart.unsorted data)) as Hfin.
  { apply Forall_forall. intros e He. now apply (unsorted_finite data). }
  split.
  - assert (StronglySorted
              (fun a b => before EducationChart.byEducationNum a b = true)
              (js_sort EducationChart.byEducationNum
                 (EducationChart.unsorted data))) as Hs.
    { apply (js_sort_sorted EducationChart.byEducationNum P); auto.
      - intros a b [x Hx] [y Hy].
        rewrite (before_byEducationNum a b x y),
          (before_byEducationNum b a y x) by auto.
        apply Qcle_total.
      - intros a b c [x Hx] [y Hy] [z Hz].
        rewrite (before_byEducationNum a b x y),
          (before_byEducationNum b c y z),
          (before_byEducationNum a c x z) by auto.
        apply Qcle_trans. }
    assert (Forall P (js_sort EducationChart.byEducationNum
                        (EducationChart.unsorted data))) as Hfs
        by (eapply Permutation_Forall; [symmetry; apply js_sort_perm | exact Hfin]).
    clear - Hs Hfs. induction Hs as [| a s Hs IH Ha]; constructor.
    + inversion Hfs; auto.
    + inversion Hfs as [| ? ? [x Hx] Hl]; subst.
      rewrite Forall_forall in *. intros b Hb.
      destruct (Hl b Hb) as [y Hy].
      specialize (Ha b Hb).
      rewrite (before_byEducationNum a b x y) in Ha by auto.
      rewrite Hx, Hy. simpl. now apply qc_leb_le.
  - intros q. apply js_sort_stable. intros a b Ha Hb.
    unfold has_level in Ha, Hb.
    destruct (EducationChart.educationNum a) as [| x] eqn:Ex; [discriminate |].
    destruct (EducationChart.educationNum b) as [| y] eqn:Ey; [discriminate |].
    apply qc_eqb_eq in Ha, Hb. subst.
    apply (before_byEducationNum a b q q); auto. apply Qcle_refl.
Qed.

(** C7, as the code has it.  Each of the four sorted arrays of rate
    aggregates -- occupation and sex, descending by rate; marital
    status, ascending by rate; education, ascending by education.num --
    is the array of its groups, which are in the order in which their
    keys are first seen in the rows, reordered by the one sort key: the
    array is in the order of that key, and the aggregates with one value
    of the key stay in first-seen order.  The rates are always numbers;
    for the education array this needs every education.num to be a
    number, as the comparator is not consistent on NaN. *)
Theorem sorted_rates_stable (data : list Row) :
  (let unsorted :=
     rateBy (OccupationChart.occupationData data) occupation isHighIncome in
   let sorted := OccupationChart.occupationRates data in
   Permutation sorted unsorted
   /\ map name unsorted =
      first_seen (map occupation (OccupationChart.occupationData data))
   /\ StronglySorted (fun a b => num_ge (rate a) (rate b) = true) sorted
   /\ (forall q, filter (has_rate q) sorted = filter (has_rate q) unsorted))
  /\ (let unsorted := rateBy data sex isHighIncome in
      let sorted := SexChart.sexRates data in
      Permutation sorted unsorted
      /\ map name unsorted = first_seen (map sex data)
      /\ StronglySorted (fun a b => num_ge (rate a) (rate b) = true) sorted
      /\ (forall q, filter (has_rate q) sorted = filter (has_rate q) unsorted))
  /\ (let unsorted := rateBy data marital_status isHighIncome in
      let sorted := MaritalStatusChart.maritalRates data in
      Permutation sorted unsorted
      /\ map name unsorted = first_seen (map marital_status data)
      /\ StronglySorted (fun a b => num_ge (rate b) (rate a) = true) sorted
      /\ (forall q, filter (has_rate q) sorted = filter (has_rate q) unsorted))
  /\ (let unsorted := EducationChart.unsorted data in
      let sorted := EducationChart.educationRates data in
      Permutation sorted unsorted
      /\ map EducationChart.education unsorted = first_seen (map education data)
      /\ (finite_levels data ->
          StronglySorted
            (fun a b => num_ge (EducationChart.educationNum b)
                               (EducationChart.educationNum a) = true)
            sorted
          /\ (forall q, filter (has_level q) sorted
                        = filter (has_level q) unsorted))).
Proof.
  split; [| split; [| split]].
  - intros unsorted sorted.
    split; [apply js_sort_perm |]. split; [apply rateBy_names |].
    apply byRateDescending_stable, rateBy_finite.
  - intros unsorted sorted.
    split; [apply js_sort_perm |]. split; [apply rateBy_names |].
    apply byRateDescending_stable, rateBy_finite.
  - intros unsorted sorted.
    split; [apply js_sort_perm |]. split; [apply rateBy_names |].
    apply byRateAscending_stable, rateBy_finite.
  - intros unsorted sorted.
    split; [apply js_sort_perm |]. split; [apply unsorted_names |].
    apply byEducationNum_stable.
Qed.

(** Four educations, two of them with the number 9: GED, seen after
    HS-grad, stays after it. *)
Lemma sorted_rates_stable_witness :
  let data := [levelRow "Bachelors" 13; levelRow "HS-grad" 9;
               levelRow "GED" 9; levelRow "11th" 7; levelRow "HS-grad" 9] in
  finite_levels data
  /\ map EducationChart.education (EducationChart.educationRates data)
     = ["11th"; "HS-grad"; "GED"; "Bachelors"]%string
  /\ StronglySorted
       (fun a b => num_ge (EducationChart.educationNum b)
                          (EducationChart.educationNum a) = true)
       (EducationChart.educationRates data)
  /\ (forall q, filter (has_level q) (EducationChart.educationRates data)
                = filter (has_level q) (EducationChart.unsorted data)).
Proof.
  intros data.
  assert (finite_levels data) as Hf by (repeat constructor).
  split; [exact Hf |]. split; [vm_compute; reflexivity |].
  apply (proj2 (proj2 (proj2 (proj2 (proj2 (sorted_rates_stable data)))))).
  exact Hf.
Defined.

(** * Further components

    The rest of the chart code that computes: which rows and keys a
    chart shows, where its shapes go, the tooltip percentages, the pie
    layout, the band scales, the chat assistant and the cleaning of the
    categorical columns. *)

(** ** Aggregates and row order *)

Lemma first_seen_perm (keys keys' : list string) :
  Permutation keys keys' -> Permutation (first_seen keys) (first_seen keys').
Proof.
  intros Hp. apply NoDup_Permutation; try apply first_seen_NoDup.
  intros k. rewrite !first_seen_In. split; intros Hk.
  - eapply Permutation_in; eauto.
  - eapply Permutation_in; [symmetry |]; eauto.
Qed.

Lemma members_perm {A : Type} (keyof : A -> string) (l l' : list A) (k : string) :
  Permutation l l' -> Permutation (members keyof l k) (members keyof l' k).
Proof. intros Hp. unfold members. now apply filter_perm. Qed.

Lemma rateBy_buckets (records : list Row) (keyOf : Row -> string)
  (matchPredicate : Row -> bool) :
  rateBy records keyOf matchPredicate =
  map (fun k =>
         let values := members keyOf records k in
         {| name := k;
            rate := length_ratio (matched matchPredicate values) (length values);
            total := length values |})
      (first_seen (map keyOf records)).
Proof.
  unfold rateBy. rewrite group_buckets, map_map. reflexivity.
Qed.

(** X1. Reordering the rows changes the order of the aggregates at
    most: countBy and rateBy return the same entries, with the same
    counts, totals and rates. *)
Theorem aggregates_permutation (records records' : list Row)
  (keyOf : Row -> string) (matchPredicate : Row -> bool) :
  Permutation records records' ->
  Permutation (countBy records keyOf) (countBy records' keyOf)
  /\ Permutation (rateBy records keyOf matchPredicate)
                 (rateBy records' keyOf matchPredicate).
Proof.
  intros Hp.
  pose proof (first_seen_perm _ _ (Permutation_map keyOf Hp)) as Hk.
  split.
  - rewrite !countBy_buckets.
    rewrite (map_ext (fun k => Build_Entry k (length (members keyOf records k)))
                     (fun k => Build_Entry k (length (members keyOf records' k)))).
    + now apply Permutation_map.
    + intros k. f_equal. apply Permutation_length. now apply members_perm.
  - rewrite !rateBy_buckets.
    erewrite map_ext; [apply Permutation_map; exact Hk |].
    intros k. simpl.
    pose proof (members_perm keyOf _ _ k Hp) as Hm.
    unfold matched.
    rewrite (Permutation_length Hm).
    rewrite (Permutation_length (filter_perm matchPredicate _ _ Hm)).
    reflexivity.
Qed.

Lemma aggregates_permutation_witness :
  Permutation
    (countBy [mkRow ">50K" "" "" NaN; mkRow "<=50K" "" "" NaN] income)
    (countBy [mkRow "<=50K" "" "" NaN; mkRow ">50K" "" "" NaN] income).
Proof.
  apply (aggregates_permutation _ _ income isHighIncome).
  apply perm_swap.
Defined.

(** ** Which occupations and which gains are drawn *)

Definition kept_occupation (k : string) : Prop := k <> ""%string /\ k <> "?"%string.

Lemma occupationData_In (data : list Row) (r : Row) :
  In r (OccupationChart.occupationData data) <->
  In r data /\ kept_occupation (occupation r).
Proof.
  unfold OccupationChart.occupationData, kept_occupation.
  rewrite filter_In, andb_true_iff, !negb_true_iff, !String.eqb_neq. tauto.
Qed.

(** X2. The occupation chart has one bar per occupation other than "?"
    and the empty string, and no bar for those two; the totals of the
    bars add up to the number of rows that are kept. *)
Theorem occupationRates_names (data : list Row) :
  NoDup (map name (OccupationChart.occupationRates data))
  /\ (forall k, In k (map name (OccupationChart.occupationRates data)) <->
                kept_occupation k /\ exists r, In r data /\ occupation r = k)
  /\ list_sum (map total (OccupationChart.occupationRates data))
     = length (OccupationChart.occupationData data).
Proof.
  unfold OccupationChart.occupationRates.
  set (kept := OccupationChart.occupationData data).
  assert (Permutation (map name (js_sort byRateDescending
                                   (rateBy kept occupation isHighIncome)))
                      (first_seen (map occupation kept))) as Hn.
  { rewrite <- rateBy_names with (matchPredicate := isHighIncome).
    apply Permutation_map, js_sort_perm. }
  split; [| split].
  - eapply Permutation_NoDup; [symmetry; exact Hn | apply first_seen_NoDup].
  - intros k. split.
    + intros Hk. apply (Permutation_in _ Hn) in Hk.
      apply -> first_seen_In in Hk. apply in_map_iff in Hk.
      destruct Hk as (r & <- & Hr). apply occupationData_In in Hr.
      destruct Hr as [Hr Hkept]. split; [exact Hkept |]. now exists r.
    + intros (Hkept & r & Hr & <-).
      apply (Permutation_in _ (Permutation_sym Hn)).
      apply first_seen_In. apply in_map. apply occupationData_In. auto.
  - rewrite (Permutation_map total (js_sort_perm byRateDescending _)).
    rewrite rateBy_buckets, map_map. simpl.
    apply members_length_sum; [apply first_seen_NoDup |].
    intros v Hv. apply first_seen_In. now apply in_map.
Qed.

Lemma sumstat_min_least (f : Row -> number) (d : list Row) :
  finite (map f d) <> [] ->
  exists lo, min (sumstat f d) = Some (Num lo) /\ least lo (finite (map f d)).
Proof.
  intros Hne. unfold sumstat. simpl.
  rewrite min_numbers, numbers_finite. now apply min_Num.
Qed.

Lemma finite_In (l : list number) (q : Qc) : In q (finite l) <-> In (Num q) l.
Proof.
  induction l as [| [| x] l IH]; simpl.
  - tauto.
  - rewrite IH. split; [tauto | intros [H | H]; [discriminate | exact H]].
  - rewrite IH. split; intros [H | H]; auto; left; congruence.
Qed.

(** X3. The capital-gain chart draws a box for an income key exactly
    when some row with that income has a gain above 0, and the minimum
    of every box is above 0: rows with gain 0 are not in the sample. *)
Theorem capital_gains_positive (data : list Row) :
  (forall k, In k (map key (CapitalGainsChart.sumstatArray data)) <->
             exists r, In r data /\ income r = k
                       /\ num_gt (capital_gain r) (Num (ofZ 0)) = true)
  /\ Forall (fun e => exists lo, min (value e) = Some (Num lo) /\ 0 < lo)
            (CapitalGainsChart.sumstatArray data).
Proof.
  assert (CapitalGainsChart.sumstatArray data =
          map (fun k => Build_Entry k
                          (sumstat capital_gain
                             (members income (CapitalGainsChart.gainsData data) k)))
              (first_seen (map income (CapitalGainsChart.gainsData data)))) as E.
  { unfold CapitalGainsChart.sumstatArray, entries, d3.rollup.
    rewrite group_buckets, !map_map. reflexivity. }
  split.
  - intros k. rewrite E, map_map. simpl. rewrite map_id, first_seen_In, in_map_iff.
    unfold CapitalGainsChart.gainsData.
    split.
    + intros (r & <- & Hr). apply filter_In in Hr. exists r. tauto.
    + intros (r & Hr & <- & Hg). exists r. split; [reflexivity |].
      apply filter_In. auto.
  - rewrite E. apply Forall_forall. intros e He. apply in_map_iff in He.
    destruct He as (k & <- & Hk). simpl.
    apply -> first_seen_In in Hk.
    apply (members_nonempty income) in Hk.
    set (g := members income (CapitalGainsChart.gainsData data) k) in *.
    assert (forall r, In r g -> In r (CapitalGainsChart.gainsData data)) as Hg
        by (intros r Hr; unfold g, members in Hr; apply filter_In in Hr; tauto).
    destruct (sumstat_min_least capital_gain g) as (lo & Hlo & Hin & _).
    { now apply (gainsData_finite data). }
    exists lo. split; [exact Hlo |].
    apply finite_In, in_map_iff in Hin. destruct Hin as (r & Hr & Hrg).
    apply Hg in Hrg. unfold CapitalGainsChart.gainsData in Hrg.
    apply filter_In in Hrg. destruct Hrg as [_ Hpos].
    rewrite Hr in Hpos. unfold num_gt in Hpos. simpl in Hpos.
    now apply qc_ltb_lt in Hpos.
Qed.

(** ** Bars and boxes inside the plot area *)

Lemma scaleLinear_line (d0 d1 r0 r1 v : Qc) :
  d0 < d1 ->
  d3.scaleLinear (Num d0, Num d1) (Num r0, Num r1) (Some (Num v))
  = Some (Num (r0 + (v - d0) / (d1 - d0) * (r1 - r0))).
Proof.
  intros Hd. unfold d3.scaleLinear, d3.bimap. simpl.
  assert (qc_ltb d1 d0 = false) as -> by (apply qc_ltb_ge; now apply Qclt_le_weak).
  unfold d3.interpolateNumber, d3.normalize. simpl.
  assert (qc_eqb (d1 - d0) 0 = false) as ->.
  { apply qc_eqb_neq. rewrite qc_sub_zero. intros ->.
    exact (Qclt_not_eq _ _ Hd eq_refl). }
  simpl. do 2 f_equal. ring.
Qed.

Lemma max_finite (l : list number) :
  Forall (fun v => isNaN v = false) l -> l <> [] ->
  exists M, d3.max l = Some (Num M) /\ greatest M (finite l).
Proof.
  intros Hall Hne. pose proof (all_Num l Hall) as Hl.
  assert (finite l <> []) as Hf by (intros E; rewrite E in Hl; auto).
  destruct (max_Num (finite l) Hf) as (M & HM & Hg).
  exists M. split; [now rewrite Hl | exact Hg].
Qed.

Lemma rateBy_unit_interval (records : list Row) (keyOf : Row -> string)
  (matchPredicate : Row -> bool) (a : Rate) :
  In a (rateBy records keyOf matchPredicate) ->
  exists q, rate a = Num q /\ 0 <= q /\ q <= 1.
Proof.
  intros Ha. unfold rateBy in Ha. apply in_map_iff in Ha.
  destruct Ha as ([k g] & <- & Hin). simpl.
  apply group_In in Hin. destruct Hin as (-> & Hne & _).
  destruct (is_rate_group matchPredicate _ Hne) as (_ & _ & _ & _ & q & Hq).
  now exists q.
Qed.

Lemma share_bounds (q M w : Qc) :
  0 <= q -> q <= M -> 0 < M -> 0 <= w ->
  0 <= q / M * w /\ q / M * w <= w /\ M / M * w = w.
Proof.
  intros Hq HqM HM Hw.
  assert (M <> 0) as Hne by (intros ->; exact (Qclt_not_eq _ _ HM eq_refl)).
  assert (0 <= q / M /\ q / M <= 1) as [H0 H1].
  { qc2q. split.
    - apply Qle_shift_div_l; [assumption | lra].
    - apply Qle_shift_div_r; [assumption | lra]. }
  set (t := q / M) in *. clearbody t.
  split; [| split].
  - qc2q. nra.
  - qc2q. nra.
  - field. exact Hne.
Qed.

(** X4. When some occupation has a rate above 0, every bar of the
    occupation chart has the length rate / (largest rate) * width,
    between 0 and the width, and the first bar spans the whole width. *)
Theorem occupation_bars_fit (data : list Row) :
  (exists a, In a (OccupationChart.occupationRates data) /\ rate a <> Num 0) ->
  exists M : Qc,
    d3.max (map rate (OccupationChart.occupationRates data)) = Some (Num M)
    /\ 0 < M
    /\ Forall (fun a =>
                 exists q, rate a = Num q
                           /\ OccupationChart.x data (Some (rate a))
                              = Some (Num (q / M * ofZ 850))
                           /\ 0 <= q / M * ofZ 850 /\ q / M * ofZ 850 <= ofZ 850)
              (OccupationChart.occupationRates data)
    /\ exists a rest,
        OccupationChart.occupationRates data = a :: rest
        /\ OccupationChart.x data (Some (rate a)) = Some (Num (ofZ 850)).
Proof.
  intros (a0 & Ha0 & Hnz).
  set (rates := OccupationChart.occupationRates data) in *.
  assert (forall a, In a rates -> exists q, rate a = Num q /\ 0 <= q /\ q <= 1)
    as Hunit.
  { intros a Ha. unfold rates, OccupationChart.occupationRates in Ha.
    apply (Permutation_in _ (js_sort_perm _ _)) in Ha.
    eapply rateBy_unit_interval; eauto. }
  destruct (max_finite (map rate rates)) as (M & HM & HMin & HMall).
  { apply Forall_forall. intros v Hv. apply in_map_iff in Hv.
    destruct Hv as (a & <- & Ha). destruct (Hunit a Ha) as (q & -> & _).
    reflexivity. }
  { destruct rates; [destruct Ha0 | discriminate]. }
  rewrite Forall_forall in HMall.
  assert (forall a q, In a rates -> rate a = Num q -> q <= M) as Hle.
  { intros a q Ha Hq. apply HMall. apply finite_In. rewrite <- Hq.
    now apply in_map. }
  assert (0 < M) as HMpos.
  { destruct (Hunit a0 Ha0) as (q0 & Hq0 & Hq0' & _).
    apply Qclt_le_trans with q0; [| now apply (Hle a0)].
    destruct (Qcle_lt_or_eq _ _ Hq0') as [H | H]; [exact H |].
    exfalso. apply Hnz. rewrite Hq0, <- H. reflexivity. }
  assert (forall a q, In a rates -> rate a = Num q ->
                      OccupationChart.x data (Some (rate a))
                      = Some (Num (q / M * ofZ 850))) as Hx.
  { intros a q Ha Hq. unfold OccupationChart.x. fold rates. rewrite HM, Hq.
    simpl to_number. unfold OccupationChart.width.
    change (Num (ofZ 0)) with (Num 0).
    rewrite scaleLinear_line by exact HMpos. do 2 f_equal.
    field. intros ->. exact (Qclt_not_eq _ _ HMpos eq_refl). }
  exists M. split; [exact HM |]. split; [exact HMpos |]. split.
  - apply Forall_forall. intros a Ha.
    destruct (Hunit a Ha) as (q & Hq & Hq0 & _).
    exists q. split; [exact Hq |]. split; [now apply Hx |].
    assert (0 <= ofZ 850) as Hw by (vm_compute; discriminate).
    destruct (share_bounds q M (ofZ 850) Hq0 (Hle a q Ha Hq) HMpos Hw)
      as (H1 & H2 & _). auto.
  - destruct rates as [| a rest] eqn:Er; [destruct Ha0 |].
    exists a, rest. split; [reflexivity |].
    destruct (Hunit a (or_introl eq_refl)) as (q & Hq & Hq0 & _).
    rewrite (Hx a q) by (auto using in_eq).
    assert (q = M) as ->.
    { apply Qcle_antisym; [apply (Hle a); auto using in_eq |].
      apply finite_In, in_map_iff in HMin. destruct HMin as (b & Hb & Hbin).
      assert (StronglySorted (fun x y => before byRateDescending x y = true)
                             (a :: rest)) as Hs.
      { rewrite <- Er. unfold rates, OccupationChart.occupationRates.
        apply (js_sort_sorted byRateDescending finite_rate).
        - intros u v [x Hx'] [y Hy'].
          rewrite (before_descending u v x y), (before_descending v u y x) by auto.
          destruct (Qcle_total x y); auto.
        - intros u v w [x Hx'] [y Hy'] [z Hz'].
          rewrite (before_descending u v x y), (before_descending v w y z),
            (before_descending u w x z) by auto.
          intros. eapply Qcle_trans; eauto.
        - apply rateBy_finite. }
      inversion Hs as [| ? ? _ Hhead]; subst.
      destruct Hbin as [<- | Hbin]; [rewrite Hq in Hb; inversion Hb; apply Qcle_refl |].
      rewrite Forall_forall in Hhead. specialize (Hhead b Hbin).
      now apply (before_descending a b q M) in Hhead. }
    do 2 f_equal.
    destruct (share_bounds M M (ofZ 850) (Qclt_le_weak _ _ HMpos) (Qcle_refl M) HMpos)
      as (_ & _ & H3); [vm_compute; discriminate | exact H3].
Qed.

Lemma occupation_bars_fit_witness :
  let data := [mkRow ">50K" "HS-grad" "Sales" NaN;
               mkRow "<=50K" "HS-grad" "Sales" NaN;
               mkRow "<=50K" "HS-grad" "Adm-clerical" NaN] in
  exists M : Qc,
    d3.max (map rate (OccupationChart.occupationRates data)) = Some (Num M)
    /\ 0 < M
    /\ Forall (fun a =>
                 exists q, rate a = Num q
                           /\ OccupationChart.x data (Some (rate a))
                              = Some (Num (q / M * ofZ 850))
                           /\ 0 <= q / M * ofZ 850 /\ q / M * ofZ 850 <= ofZ 850)
              (OccupationChart.occupationRates data)
    /\ exists a rest,
        OccupationChart.occupationRates data = a :: rest
        /\ OccupationChart.x data (Some (rate a)) = Some (Num (ofZ 850)).
Proof.
  intros data. apply (occupation_bars_fit data).
  set (L := OccupationChart.occupationRates data). vm_compute in L. subst L.
  eexists. split; [left; reflexivity | discriminate].
Defined.

(** The education chart of App.jsx: height = 400 - 20 - 100,
    y = d3.scaleLinear().domain([0, 1]).range([height, 0]); after the
    transition a bar has [y = y(d.rate)] and
    [height = height - y(d.rate)]. *)
Module EducationBars.
Definition height : number := Num (ofZ 280).
Definition y : option number -> option number :=
  d3.scaleLinear (Num (ofZ 0), Num (ofZ 1)) (height, Num (ofZ 0)).
Definition barY (d : EducationChart.EducationRate) : option number :=
  y (Some (EducationChart.rate d)).
Definition barHeight (d : EducationChart.EducationRate) : number :=
  num_sub height (to_number (y (Some (EducationChart.rate d)))).
End EducationBars.

Lemma educationRates_unit_interval (data : list Row)
  (d : EducationChart.EducationRate) :
  In d (EducationChart.educationRates data) ->
  exists q, EducationChart.rate d = Num q /\ 0 <= q /\ q <= 1.
Proof.
  intros Hd. apply educationRates_In in Hd. destruct Hd as [-> Hk].
  apply (members_nonempty EducationChart.keyOf) in Hk.
  unfold educationRate_of. simpl.
  destruct (is_rate_group isHighIncome _ Hk) as (_ & _ & _ & _ & q & Hq).
  now exists q.
Qed.

(** X5. In the education chart with the fixed domain [0, 1] every bar
    stands on the axis and stays inside the plot: its top is at
    280 * (1 - rate), its height is 280 * rate, both between 0 and 280,
    and they add up to 280. *)
Theorem education_bars_fit (data : list Row) :
  Forall (fun d =>
            exists q t h : Qc,
              EducationChart.rate d = Num q
              /\ EducationBars.barY d = Some (Num t)
              /\ EducationBars.barHeight d = Num h
              /\ h = ofZ 280 * q /\ t + h = ofZ 280
              /\ 0 <= t /\ 0 <= h)
         (EducationChart.educationRates data).
Proof.
  apply Forall_forall. intros d Hd.
  destruct (educationRates_unit_interval data d Hd) as (q & Hq & Hq0 & Hq1).
  exists q, (ofZ 280 * (1 - q)), (ofZ 280 * q).
  assert (EducationBars.barY d = Some (Num (ofZ 280 * (1 - q)))) as Hy.
  { unfold EducationBars.barY, EducationBars.y, EducationBars.height.
    rewrite Hq. rewrite scaleLinear_line by reflexivity.
    do 2 f_equal. change (ofZ 0) with 0. change (ofZ 1) with 1. field.
    intros H. discriminate H. }
  split; [exact Hq |]. split; [exact Hy |]. split; [| split; [| split; [| split]]].
  - unfold EducationBars.barHeight. unfold EducationBars.barY in Hy.
    rewrite Hy. unfold EducationBars.height. simpl. f_equal. ring.
  - reflexivity.
  - ring.
  - assert (0 <= ofZ 280) as Hw by (vm_compute; discriminate).
    set (w := ofZ 280) in *. clearbody w. qc2q. nra.
  - assert (0 <= ofZ 280) as Hw by (vm_compute; discriminate).
    set (w := ofZ 280) in *. clearbody w. qc2q. nra.
Qed.

(** X6. The box of the age chart, for a group with at least one finite
    age: the five positions on the age axis come in the order
    min, q1, median, q3, max, and the box has the width
    x(q3) - x(q1) = (q3 - q1) / 80 * 410, which is not negative. *)
Theorem age_box_geometry (d : list Row) :
  finite (map age d) <> [] ->
  exists plo p1 pm p3 phi q1v q3v : Qc,
    AgeChart.x (min (sumstat age d)) = Some (Num plo)
    /\ AgeChart.x (q1 (sumstat age d)) = Some (Num p1)
    /\ AgeChart.x (median (sumstat age d)) = Some (Num pm)
    /\ AgeChart.x (q3 (sumstat age d)) = Some (Num p3)
    /\ AgeChart.x (max (sumstat age d)) = Some (Num phi)
    /\ plo <= p1 /\ p1 <= pm /\ pm <= p3 /\ p3 <= phi
    /\ q1 (sumstat age d) = Some (Num q1v) /\ q3 (sumstat age d) = Some (Num q3v)
    /\ num_sub (to_number (AgeChart.x (q3 (sumstat age d))))
               (to_number (AgeChart.x (q1 (sumstat age d))))
       = Num ((q3v - q1v) / ofZ 80 * ofZ 410)
    /\ 0 <= (q3v - q1v) / ofZ 80 * ofZ 410.
Proof.
  intros Hne.
  destruct (sumstat_ordered age d Hne)
    as (lo & a & m & b & hi & Hlo & Ha & Hm & Hb & Hhi & L1 & L2 & L3 & L4).
  assert (forall v, AgeChart.x (Some (Num v))
                    = Some (Num ((v - ofZ 15) / ofZ 80 * ofZ 410))) as Hx.
  { intros v. unfold AgeChart.x, AgeChart.width.
    rewrite scaleLinear_line by reflexivity. do 2 f_equal.
    qc_eq. field. }
  assert (forall u v, u <= v ->
                      (u - ofZ 15) / ofZ 80 * ofZ 410
                      <= (v - ofZ 15) / ofZ 80 * ofZ 410) as Hmono.
  { intros u v Huv. unfold Qcdiv. qc2q. 
    set (c := (/ inject_Z 80 * inject_Z 410)%Q).
    assert (0 <= c)%Q by (vm_compute; discriminate).
    rewrite <- !Qmult_assoc. fold c. nra. }
  exists ((lo - ofZ 15) / ofZ 80 * ofZ 410), ((a - ofZ 15) / ofZ 80 * ofZ 410),
    ((m - ofZ 15) / ofZ 80 * ofZ 410), ((b - ofZ 15) / ofZ 80 * ofZ 410),
    ((hi - ofZ 15) / ofZ 80 * ofZ 410), a, b.
  rewrite Hlo, Ha, Hm, Hb, Hhi, !Hx. simpl.
  repeat split; auto.
  - f_equal. qc_eq. field.
  - pose proof (Hmono a b (Qcle_trans _ _ _ L2 L3)) as H.
    assert ((b - a) / ofZ 80 * ofZ 410 =
            (b - ofZ 15) / ofZ 80 * ofZ 410 - (a - ofZ 15) / ofZ 80 * ofZ 410) as ->
        by (qc_eq; field).
    set (u := (a - ofZ 15) / ofZ 80 * ofZ 410) in *.
    set (v := (b - ofZ 15) / ofZ 80 * ofZ 410) in *.
    clearbody u v. qc2q. lra.
Qed.

Lemma age_box_geometry_witness :
  let d := [ageRow (Num (ofZ 40)) ">50K"; ageRow NaN ">50K";
            ageRow (Num (ofZ 25)) ">50K"] in
  exists plo p1 pm p3 phi q1v q3v : Qc,
    AgeChart.x (min (sumstat age d)) = Some (Num plo)
    /\ AgeChart.x (q1 (sumstat age d)) = Some (Num p1)
    /\ AgeChart.x (median (sumstat age d)) = Some (Num pm)
    /\ AgeChart.x (q3 (sumstat age d)) = Some (Num p3)
    /\ AgeChart.x (max (sumstat age d)) = Some (Num phi)
    /\ plo <= p1 /\ p1 <= pm /\ pm <= p3 /\ p3 <= phi
    /\ q1 (sumstat age d) = Some (Num q1v) /\ q3 (sumstat age d) = Some (Num q3v)
    /\ num_sub (to_number (AgeChart.x (q3 (sumstat age d))))
               (to_number (AgeChart.x (q1 (sumstat age d))))
       = Num ((q3v - q1v) / ofZ 80 * ofZ 410)
    /\ 0 <= (q3v - q1v) / ofZ 80 * ofZ 410.
Proof.
  intros d. apply (age_box_geometry d). simpl. discriminate.
Defined.

(** ** Tooltip percentages of the pie chart *)

Module d3_array.
(** d3.sum(values, valueof):
      let sum = 0;
      for (let value of values) if (value = +valueof(value)) sum += value;
      return sum; *)
Definition truthy (value : number) : bool :=
  match value with
  | NaN => false
  | Num q => negb (qc_eqb q 0)
  end.

Definition sum (values : list number) : number :=
  fold_left (fun sum value => if truthy value then num_add sum value else sum)
            values (Num 0).
End d3_array.

(** [a / b].  A quotient with divisor 0 is [NaN] for [0 / 0] and an
    infinity otherwise; the infinities are outside the model, and the
    divisor of the one use below is shown to be above 0. *)
Definition num_div (a b : number) : number :=
  match a, b with
  | Num x, Num y => if qc_eqb y 0 then NaN else Num (x / y)
  | _, _ => NaN
  end.

Module PieTooltip.
(** [const total = d3.sum(incomeData, d => d.value);
     const percent = (d.data.value / total * 100)], before [toFixed]. *)
Definition total (incomeData : list (Entry nat)) : number :=
  d3_array.sum (map (fun d => Num (ofnat (value d))) incomeData).

Definition percent (incomeData : list (Entry nat)) (d : Entry nat) : number :=
  num_mul (num_div (Num (ofnat (value d))) (total incomeData)) (Num (ofZ 100)).
End PieTooltip.

Lemma ofnat_add (a b : nat) : ofnat (a + b) = ofnat a + ofnat b.
Proof.
  unfold ofnat, ofZ. qc_eq. rewrite Nat2Z.inj_add, inject_Z_plus. reflexivity.
Qed.

Lemma ofnat_zero (n : nat) : ofnat n = 0 <-> n = 0%nat.
Proof.
  split; [| intros ->; reflexivity].
  intros H. destruct n; [reflexivity |].
  pose proof (ofnat_pos (S n) (le_n_S _ _ (Nat.le_0_l n))) as Hp.
  rewrite H in Hp. exfalso. exact (Qclt_not_eq _ _ Hp eq_refl).
Qed.

Lemma sum_counts (counts : list nat) (acc : nat) :
  fold_left (fun sum value => if d3_array.truthy value then num_add sum value else sum)
            (map (fun c => Num (ofnat c)) counts) (Num (ofnat acc))
  = Num (ofnat (acc + list_sum counts)).
Proof.
  revert acc. induction counts as [| c counts IH]; intros acc; simpl.
  - now rewrite Nat.add_0_r.
  - destruct (qc_eqb (ofnat c) 0) eqn:E; simpl.
    + apply qc_eqb_eq, ofnat_zero in E. subst c. rewrite IH. reflexivity.
    + rewrite <- ofnat_add, IH. now rewrite Nat.add_assoc.
Qed.

Lemma incomeData_total (data : list Row) :
  PieTooltip.total (IncomeDistributionChart.incomeData data)
  = Num (ofnat (length data)).
Proof.
  unfold PieTooltip.total, d3_array.sum.
  rewrite <- map_map with (f := value) (g := fun c => Num (ofnat c)).
  change (Num 0) with (Num (ofnat 0)). rewrite sum_counts. simpl.
  do 2 f_equal. unfold IncomeDistributionChart.incomeData.
  rewrite countBy_buckets, map_map. simpl.
  apply members_length_sum; [apply first_seen_NoDup |].
  intros v Hv. apply first_seen_In. now apply in_map.
Qed.

Lemma share_add (a b T h : Qc) :
  T <> 0 -> a / T * h + b / T * h = (a + b) / T * h.
Proof. intros. field. auto. Qed.

Lemma share_whole (T h : Qc) : T <> 0 -> T / T * h = h.
Proof. intros. field. auto. Qed.

Lemma share_none (T h : Qc) : T <> 0 -> 0 / T * h = 0.
Proof. intros. field. auto. Qed.

Lemma percent_sum (counts : list nat) (T : Qc) :
  T <> 0 ->
  fold_right num_add (Num 0)
    (map (fun c => num_mul (num_div (Num (ofnat c)) (Num T)) (Num (ofZ 100))) counts)
  = Num (ofnat (list_sum counts) / T * ofZ 100).
Proof.
  intros Hn. pose proof (proj2 (qc_eqb_neq T 0) Hn) as HT.
  induction counts as [| c counts IH].
  - cbn [map fold_right list_sum]. change (ofnat 0) with 0.
    now rewrite share_none.
  - change (list_sum (c :: counts)) with (c + list_sum counts)%nat.
    cbn [map fold_right]. rewrite IH. unfold num_div. rewrite HT.
    cbn [num_mul num_add]. f_equal. rewrite ofnat_add.
    now apply share_add.
Qed.

(** X7. For a non-empty data set the tooltip percentages of the pie
    slices, before rounding, add up to 100; the divisor of each is the
    number of rows, which is not 0. *)
Theorem pie_percentages_total (data : list Row) :
  data <> [] ->
  let incomeData := IncomeDistributionChart.incomeData data in
  PieTooltip.total incomeData = Num (ofnat (length data))
  /\ 0 < ofnat (length data)
  /\ fold_right num_add (Num 0) (map (PieTooltip.percent incomeData) incomeData)
     = Num (ofZ 100).
Proof.
  intros Hne incomeData.
  assert (1 <= length data)%nat as Hlen
      by (destruct data; simpl; [congruence | lia]).
  pose proof (ofnat_pos _ Hlen) as Hpos.
  assert (ofnat (length data) <> 0) as Hnz
      by (intros E; rewrite E in Hpos; exact (Qclt_not_eq _ _ Hpos eq_refl)).
  split; [apply incomeData_total |]. split; [exact Hpos |].
  unfold PieTooltip.percent. fold incomeData.
  unfold incomeData at 1. rewrite incomeData_total.
  rewrite <- map_map
    with (f := value)
         (g := fun c => num_mul (num_div (Num (ofnat c)) (Num (ofnat (length data))))
                                (Num (ofZ 100))).
  rewrite percent_sum by exact Hnz. f_equal.
  assert (list_sum (map value incomeData) = length data) as ->.
  { unfold incomeData, IncomeDistributionChart.incomeData.
    rewrite countBy_buckets, map_map. simpl.
    apply members_length_sum; [apply first_seen_NoDup |].
    intros v Hv. apply first_seen_In. now apply in_map. }
  now apply share_whole.
Qed.

Lemma pie_percentages_total_witness :
  let data := [mkRow ">50K" "" "" NaN; mkRow "<=50K" "" "" NaN;
               mkRow "<=50K" "" "" NaN] in
  let incomeData := IncomeDistributionChart.incomeData data in
  PieTooltip.total incomeData = Num (ofnat (length data))
  /\ 0 < ofnat (length data)
  /\ fold_right num_add (Num 0) (map (PieTooltip.percent incomeData) incomeData)
     = Num (ofZ 100).
Proof.
  intros data. apply (pie_percentages_total data). discriminate.
Defined.

Lemma isHighIncome_members (data : list Row) :
  members income data ">50K" = filter isHighIncome data.
Proof. reflexivity. Qed.

(** X8. The KPI card and the pie chart agree: for a non-empty data set
    the high-income share of the card is the tooltip percentage of the
    ">50K" slice, and it is 0 when the pie has no such slice. *)
Theorem kpi_matches_pie (data : list Row) :
  data <> [] ->
  let incomeData := IncomeDistributionChart.incomeData data in
  Forall (fun d => key d = ">50K"%string ->
                   PieTooltip.percent incomeData d
                   = App.highIncomePercent (App.kpi data))
         incomeData
  /\ (~ In ">50K"%string (map key incomeData) ->
      App.highIncomePercent (App.kpi data) = Num 0).
Proof.
  intros Hne incomeData.
  assert (1 <= length data)%nat as Hlen
      by (destruct data; simpl; [congruence | lia]).
  pose proof (ofnat_pos _ Hlen) as Hpos.
  assert (qc_eqb (ofnat (length data)) 0 = false) as Hnz.
  { apply qc_eqb_neq. intros E. rewrite E in Hpos.
    exact (Qclt_not_eq _ _ Hpos eq_refl). }
  assert (App.highIncomePercent (App.kpi data)
          = Num (ofnat (length (filter isHighIncome data))
                 / ofnat (length data) * ofZ 100)) as Hk.
  { unfold App.kpi. simpl. unfold length_ratio.
    destruct (length data); [lia | reflexivity]. }
  split.
  - apply Forall_forall. intros d Hd Hkey.
    unfold PieTooltip.percent. fold incomeData. unfold incomeData at 1.
    rewrite incomeData_total, Hk. simpl. rewrite Hnz. simpl. do 3 f_equal.
    unfold incomeData, IncomeDistributionChart.incomeData in Hd.
    rewrite countBy_buckets in Hd. apply in_map_iff in Hd.
    destruct Hd as (k & <- & _). simpl in *. subst k.
    now rewrite isHighIncome_members.
  - intros Hno. rewrite Hk.
    assert (filter isHighIncome data = []) as ->.
    { apply filter_none. intros r Hr.
      destruct (isHighIncome r) eqn:E; [| reflexivity].
      exfalso. apply Hno. unfold incomeData, IncomeDistributionChart.incomeData.
      rewrite countBy_buckets, map_map. simpl. rewrite map_id.
      apply first_seen_In. apply String.eqb_eq in E. rewrite <- E.
      now apply in_map. }
    cbn [length]. change (ofnat 0) with 0.
    rewrite share_none; [reflexivity | now apply qc_eqb_neq].
Qed.

Lemma kpi_matches_pie_witness :
  let data := [mkRow ">50K" "" "" NaN; mkRow "<=50K" "" "" NaN] in
  let incomeData := IncomeDistributionChart.incomeData data in
  Forall (fun d => key d = ">50K"%string ->
                   PieTooltip.percent incomeData d
                   = App.highIncomePercent (App.kpi data))
         incomeData
  /\ (~ In ">50K"%string (map key incomeData) ->
      App.highIncomePercent (App.kpi data) = Num 0).
Proof.
  intros data. apply (kpi_matches_pie data). discriminate.
Defined.

(** ** Band scales *)

Module d3_scale.
(** ordinal.domain(_): domain = [], index = new Map;
      for (const value of _) {
        if (index.has(value)) continue;
        index.set(value, domain.push(value) - 1); } *)
Definition ordinal_domain (keys : list string) : list string :=
  fold_left (fun domain value =>
               if existsb (String.eqb value) domain then domain
               else domain ++ [value])
            keys [].

(** index.get(d) *)
Fixpoint index_of (d : string) (domain : list string) : option nat :=
  match domain with
  | [] => None
  | k :: rest =>
      if String.eqb k d then Some 0%nat
      else option_map S (index_of d rest)
  end.

Definition qc_max (a b : Qc) : Qc := if qc_leb a b then b else a.
Definition qc_min (a b : Qc) : Qc := if qc_leb a b then a else b.

(** d3.scaleBand().range([r0, r1]).domain(keys).padding(p), with the
    defaults align = 0.5 and round = false:
      padding(p): paddingInner = Math.min(1, paddingOuter = +p)
      rescale():
        n = domain().length, reverse = r1 < r0,
        start = reverse ? r1 : r0, stop = reverse ? r0 : r1;
        step = (stop - start) / Math.max(1, n - paddingInner + paddingOuter * 2);
        start += (stop - start - step * (n - paddingInner)) * align;
        bandwidth = step * (1 - paddingInner);
        values = sequence(n).map(i => start + step * i);
        ordinalRange(reverse ? values.reverse() : values) *)
Record Band : Type := {
  domain : list string;
  range : list Qc;
  bandwidth : Qc;
  step : Qc
}.

Definition scaleBand (r0 r1 : Qc) (keys : list string) (padding : Qc) : Band :=
  let domain := ordinal_domain keys in
  let paddingOuter := padding in
  let paddingInner := qc_min 1 padding in
  let n := ofnat (length domain) in
  let reverse := qc_ltb r1 r0 in
  let start := if reverse then r1 else r0 in
  let stop := if reverse then r0 else r1 in
  let step := (stop - start) / qc_max 1 (n - paddingInner + paddingOuter * Q2Qc 2) in
  let start := start + (stop - start - step * (n - paddingInner)) * Q2Qc (1 # 2) in
  let bandwidth := step * (1 - paddingInner) in
  let values := map (fun i => start + step * ofnat i) (seq 0 (length domain)) in
  {| domain := domain;
     range := if reverse then rev values else values;
     bandwidth := bandwidth;
     step := step |}.

(** scale(d) of a band scale, whose unknown value is undefined:
      let i = index.get(d);
      if (i === undefined) return unknown;
      return range[i % range.length]; *)
Definition apply (b : Band) (d : string) : option number :=
  match index_of d (domain b) with
  | None => None
  | Some i =>
      option_map Num (nth_error (range b) (i mod length (range b)))
  end.
End d3_scale.

Lemma ordinal_domain_snoc (keys : list string) (k : string) :
  d3_scale.ordinal_domain (keys ++ [k]) =
  if existsb (String.eqb k) (d3_scale.ordinal_domain keys)
  then d3_scale.ordinal_domain keys
  else d3_scale.ordinal_domain keys ++ [k].
Proof. unfold d3_scale.ordinal_domain. now rewrite fold_left_app. Qed.

Lemma ordinal_domain_first_seen (keys : list string) :
  d3_scale.ordinal_domain keys = first_seen keys.
Proof.
  induction keys as [| k keys IH] using rev_ind; [reflexivity |].
  rewrite ordinal_domain_snoc, first_seen_snoc, IH.
  destruct (in_dec string_dec k keys) as [Hin | Hin].
  - assert (existsb (String.eqb k) (first_seen keys) = true) as ->; auto.
    apply existsb_exists. exists k. split; [now apply first_seen_In |].
    apply String.eqb_refl.
  - assert (existsb (String.eqb k) (first_seen keys) = false) as ->; auto.
    apply not_true_is_false. intros H. apply existsb_exists in H.
    destruct H as (x & Hx & E). apply String.eqb_eq in E. subst x.
    apply Hin. now apply first_seen_In.
Qed.

Lemma filter_all {A : Type} (P : A -> bool) (l : list A) :
  (forall x, In x l -> P x = true) -> filter P l = l.
Proof.
  induction l as [| a l IH]; simpl; intros H; auto.
  rewrite (H a) by auto. f_equal. auto.
Qed.

Lemma first_seen_NoDup_id (keys : list string) :
  NoDup keys -> first_seen keys = keys.
Proof.
  induction 1 as [| k keys Hk Hnd IH]; simpl; [reflexivity |].
  rewrite IH. f_equal. apply filter_all.
  intros x Hx. apply negb_true_iff, String.eqb_neq. congruence.
Qed.

Lemma index_of_nth (keys : list string) (i : nat) :
  NoDup keys -> (i < length keys)%nat ->
  d3_scale.index_of (nth i keys ""%string) keys = Some i.
Proof.
  intros Hnd. revert i. induction Hnd as [| k keys Hk Hnd IH]; intros i Hi.
  - simpl in Hi. lia.
  - destruct i as [| i]; simpl.
    + now rewrite String.eqb_refl.
    + simpl in Hi.
      assert (String.eqb k (nth i keys ""%string) = false) as ->.
      { apply String.eqb_neq. intros E. apply Hk. rewrite E.
        apply nth_In. lia. }
      rewrite IH by lia. reflexivity.
Qed.

Lemma index_of_None (keys : list string) (d : string) :
  d3_scale.index_of d keys = None <-> ~ In d keys.
Proof.
  induction keys as [| k keys IH]; simpl; [tauto |].
  destruct (String.eqb k d) eqn:E.
  - apply String.eqb_eq in E. split; [discriminate | intros H; exfalso; auto].
  - apply String.eqb_neq in E.
    destruct (d3_scale.index_of d keys) eqn:Ei; simpl.
    + split; [discriminate |]. intros H. exfalso. apply H. right.
      destruct (in_dec string_dec d keys) as [Hin | Hin]; auto.
      apply IH in Hin. discriminate.
    + split; [| reflexivity]. intros _ [H | H]; [congruence |].
      now apply (proj1 IH).
Qed.

(** The layout of [n] bands on an extent of length [L >= 0] with
    padding [p] in [0, 1]: the step, the offset of the first band and
    the width of a band. *)
Lemma band_arithmetic (n p L s : Qc) :
  1 <= n -> 0 <= p -> p <= 1 -> 0 <= L -> s * (n + p) = L ->
  0 <= s
  /\ 0 <= (L - s * (n - p)) * Q2Qc (1 # 2)
  /\ (L - s * (n - p)) * Q2Qc (1 # 2) + s * (n - 1) + s * (1 - p) <= L
  /\ 0 <= s * (1 - p) /\ s * (1 - p) <= s.
Proof.
  intros Hn Hp0 Hp1 HL Hs.
  assert (0 <= s) as Hs0.
  { apply Qcnot_lt_le. intros Hneg.
    assert (s * (n + p) < 0) as H; [| rewrite Hs in H; exact (Qcle_not_lt _ _ HL H)].
    clear Hs HL. qc2q. nra. }
  assert (s * (n - p) <= L) as Hle by (rewrite <- Hs; clear Hs HL; qc2q; nra).
  clear Hs. set (u := s * (n - p)) in *.
  assert (u = s * (n - 1) + s * (1 - p)) as Hu by (unfold u; ring).
  rewrite <- Qcplus_assoc, <- Hu. clearbody u.
  repeat split.
  - exact Hs0.
  - clear Hu. qc2q. lra.
  - clear Hu. qc2q. lra.
  - clear Hu Hle. qc2q. nra.
  - clear Hu Hle. qc2q. nra.
Qed.

Lemma ordinal_domain_NoDup (keys : list string) :
  NoDup keys -> d3_scale.ordinal_domain keys = keys.
Proof.
  intros H. rewrite ordinal_domain_first_seen. now apply first_seen_NoDup_id.
Qed.

Lemma band_divisor (n p : Qc) :
  1 <= n -> 0 <= p -> p <= 1 ->
  d3_scale.qc_min 1 p = p
  /\ d3_scale.qc_max 1 (n - p + p * Q2Qc 2) = n + p
  /\ n + p <> 0.
Proof.
  intros Hn Hp0 Hp1. split; [| split].
  - unfold d3_scale.qc_min. destruct (qc_leb 1 p) eqn:E; [| reflexivity].
    apply qc_leb_le in E. now apply Qcle_antisym.
  - unfold d3_scale.qc_max.
    assert (n - p + p * Q2Qc 2 = n + p) as -> by (qc_eq; ring).
    assert (qc_leb 1 (n + p) = true) as ->; [| reflexivity].
    apply qc_leb_le. qc2q. lra.
  - intros E. assert (1 <= n + p) as H by (qc2q; lra).
    rewrite E in H. vm_compute in H. now apply H.
Qed.

Lemma ofnat_ge_1 (n : nat) : (1 <= n)%nat -> 1 <= ofnat n.
Proof. intros H. change 1 with (ofnat 1). now apply ofnat_le. Qed.

(** What scaleBand builds from [n >= 1] distinct keys: bands of one
    width at [start + step * i], counted from the lower end of the
    range, in key order or, for a reversed range, against it. *)
Lemma scaleBand_parts (r0 r1 p : Qc) (keys : list string) :
  NoDup keys -> keys <> [] -> 0 <= p -> p <= 1 ->
  let b := d3_scale.scaleBand r0 r1 keys p in
  let lo := if qc_ltb r1 r0 then r1 else r0 in
  let hi := if qc_ltb r1 r0 then r0 else r1 in
  exists s st : Qc,
    d3_scale.domain b = keys
    /\ d3_scale.bandwidth b = s * (1 - p)
    /\ d3_scale.range b =
       (if qc_ltb r1 r0
        then rev (map (fun i => st + s * ofnat i) (seq 0 (length keys)))
        else map (fun i => st + s * ofnat i) (seq 0 (length keys)))
    /\ 0 <= s /\ lo <= st
    /\ st + s * (ofnat (length keys) - 1) + s * (1 - p) <= hi
    /\ 0 <= s * (1 - p) /\ s * (1 - p) <= s.
Proof.
  intros Hnd Hne Hp0 Hp1 b lo hi.
  assert (1 <= length keys)%nat as Hlen
      by (destruct keys; simpl; [congruence | lia]).
  pose proof (ofnat_ge_1 _ Hlen) as Hn.
  destruct (band_divisor (ofnat (length keys)) p Hn Hp0 Hp1) as (Hmin & Hmax & Hnz).
  assert (0 <= hi - lo) as HL.
  { unfold lo, hi. destruct (qc_ltb r1 r0) eqn:E.
    - apply qc_ltb_lt in E. qc2q. lra.
    - apply qc_ltb_ge in E. qc2q. lra. }
  set (n := ofnat (length keys)) in *.
  set (s := (hi - lo) / (n + p)).
  assert (s * (n + p) = hi - lo) as Hs by (unfold s; now field).
  destruct (band_arithmetic n p (hi - lo) s Hn Hp0 Hp1 HL Hs)
    as (Hs0 & Hoff & Hend & Hbw0 & Hbw1).
  exists s, (lo + (hi - lo - s * (n - p)) * Q2Qc (1 # 2)).
  unfold b, d3_scale.scaleBand. rewrite (ordinal_domain_NoDup keys Hnd).
  fold n. rewrite Hmin, Hmax. fold lo hi. fold s. cbn [d3_scale.domain
    d3_scale.bandwidth d3_scale.range].
  repeat split; auto.
  - clear - Hoff. set (o := (hi - lo - s * (n - p)) * Q2Qc (1 # 2)) in *.
    clearbody o. qc2q. lra.
  - clear - Hend. set (o := (hi - lo - s * (n - p)) * Q2Qc (1 # 2)) in *.
    set (u := s * (n - 1)) in *. set (w := s * (1 - p)) in *.
    clearbody o u w. qc2q. lra.
Qed.

Lemma nth_error_map_seq {B : Type} (f : nat -> B) (n i : nat) :
  (i < n)%nat -> nth_error (map f (seq 0 n)) i = Some (f i).
Proof.
  intros Hi. rewrite nth_error_map.
  rewrite (nth_error_nth' (seq 0 n) 0%nat) by (rewrite length_seq; lia).
  rewrite seq_nth by lia. reflexivity.
Qed.

Lemma nth_error_rev_map_seq {B : Type} (f : nat -> B) (n i : nat) :
  (i < n)%nat -> nth_error (rev (map f (seq 0 n))) i = Some (f (n - 1 - i)%nat).
Proof.
  intros Hi.
  assert (length (map f (seq 0 n)) = n) as Hlen
      by (rewrite length_map, length_seq; reflexivity).
  rewrite (nth_error_nth' _ (f 0%nat)) by (rewrite length_rev, Hlen; lia).
  rewrite rev_nth by (rewrite Hlen; lia). rewrite Hlen.
  rewrite map_nth, seq_nth by lia. do 2 f_equal. lia.
Qed.

(** The slot of the [i]-th key. *)
Definition slot (reverse : bool) (n i : nat) : nat :=
  if reverse then (n - 1 - i)%nat else i.

Lemma band_positions (r0 r1 p : Qc) (keys : list string) :
  NoDup keys -> keys <> [] -> 0 <= p -> p <= 1 ->
  let b := d3_scale.scaleBand r0 r1 keys p in
  let lo := if qc_ltb r1 r0 then r1 else r0 in
  let hi := if qc_ltb r1 r0 then r0 else r1 in
  exists s st : Qc,
    d3_scale.bandwidth b = s * (1 - p)
    /\ 0 <= s /\ lo <= st
    /\ st + s * (ofnat (length keys) - 1) + s * (1 - p) <= hi
    /\ 0 <= s * (1 - p) /\ s * (1 - p) <= s
    /\ forall i, (i < length keys)%nat ->
                 d3_scale.apply b (nth i keys ""%string)
                 = Some (Num (st + s * ofnat (slot (qc_ltb r1 r0) (length keys) i))).
Proof.
  intros Hnd Hne Hp0 Hp1 b lo hi.
  destruct (scaleBand_parts r0 r1 p keys Hnd Hne Hp0 Hp1)
    as (s & st & Hdom & Hbw & Hrange & Hs0 & Hlo & Hhi & Hw0 & Hw1).
  fold b in Hdom, Hbw, Hrange. fold lo in Hlo. fold hi in Hhi.
  exists s, st. repeat split; auto.
  intros i Hi. unfold d3_scale.apply. rewrite Hdom.
  rewrite index_of_nth by assumption. rewrite Hrange. unfold slot.
  destruct (qc_ltb r1 r0).
  - rewrite length_rev, length_map, length_seq, Nat.mod_small by exact Hi.
    now rewrite nth_error_rev_map_seq.
  - rewrite length_map, length_seq, Nat.mod_small by exact Hi.
    now rewrite nth_error_map_seq.
Qed.

Lemma slot_bounds (s st w hi : Qc) (n k : nat) :
  0 <= s -> 0 <= w -> (k < n)%nat ->
  st + s * (ofnat n - 1) + w <= hi ->
  st <= st + s * ofnat k /\ st + s * ofnat k + w <= hi.
Proof.
  intros Hs Hw Hk Hend.
  assert (0 <= ofnat k) as Hk0
      by (change 0 with (ofnat 0); apply ofnat_le; lia).
  assert (ofnat k <= ofnat n - 1) as Hk1.
  { assert (ofnat (k + 1) <= ofnat n) as H by (apply ofnat_le; lia).
    rewrite ofnat_add in H. change (ofnat 1) with 1 in H.
    clear - H. set (a := ofnat k) in *. set (c := ofnat n) in *.
    clearbody a c. qc2q. lra. }
  set (a := ofnat k) in *. set (c := ofnat n - 1) in *. clearbody a c.
  qc2q. split; nra.
Qed.

Lemma slot_step (s st w : Qc) (k k' : nat) :
  0 <= s -> w <= s -> (k < k')%nat ->
  st + s * ofnat k + w <= st + s * ofnat k'.
Proof.
  intros Hs Hw Hk.
  assert (ofnat k + 1 <= ofnat k') as H.
  { change 1 with (ofnat 1). rewrite <- ofnat_add. apply ofnat_le. lia. }
  set (a := ofnat k) in *. set (c := ofnat k') in *. clearbody a c.
  qc2q. nra.
Qed.

(** X9. A band scale over distinct keys, with a range [r0 <= r1] and a
    padding in [0, 1]: every key gets a band of the common width inside
    the range, the bands follow the order of the keys without
    overlapping, and a key outside the domain gets no position. *)
Theorem bands_fit (r0 r1 p : Qc) (keys : list string) :
  NoDup keys -> r0 <= r1 -> 0 <= p -> p <= 1 ->
  let b := d3_scale.scaleBand r0 r1 keys p in
  (forall i, (i < length keys)%nat ->
             exists x, d3_scale.apply b (nth i keys ""%string) = Some (Num x)
                       /\ 0 <= d3_scale.bandwidth b
                       /\ r0 <= x /\ x + d3_scale.bandwidth b <= r1)
  /\ (forall i j, (i < j)%nat -> (j < length keys)%nat ->
                  exists x x',
                    d3_scale.apply b (nth i keys ""%string) = Some (Num x)
                    /\ d3_scale.apply b (nth j keys ""%string) = Some (Num x')
                    /\ x + d3_scale.bandwidth b <= x')
  /\ (forall d, ~ In d keys -> d3_scale.apply b d = None).
Proof.
  intros Hnd Hr Hp0 Hp1 b.
  assert (qc_ltb r1 r0 = false) as Hfwd by now apply qc_ltb_ge.
  split; [| split].
  - intros i Hi.
    assert (keys <> []) as Hne by (intros E; rewrite E in Hi; simpl in Hi; lia).
    destruct (band_positions r0 r1 p keys Hnd Hne Hp0 Hp1)
      as (s & st & Hbw & Hs0 & Hlo & Hhi & Hw0 & Hw1 & Hpos).
    rewrite Hfwd in Hlo, Hhi, Hpos. fold b in Hbw, Hpos.
    rewrite (Hpos i Hi), Hbw. unfold slot.
    destruct (slot_bounds s st (s * (1 - p)) r1 (length keys) i Hs0 Hw0 Hi Hhi)
      as [H1 H2].
    eexists. split; [reflexivity |]. split; [exact Hw0 |]. split; [| exact H2].
    eapply Qcle_trans; eauto.
  - intros i j Hij Hj.
    assert (keys <> []) as Hne by (intros E; rewrite E in Hj; simpl in Hj; lia).
    destruct (band_positions r0 r1 p keys Hnd Hne Hp0 Hp1)
      as (s & st & Hbw & Hs0 & Hlo & Hhi & Hw0 & Hw1 & Hpos).
    rewrite Hfwd in Hpos. fold b in Hbw, Hpos.
    rewrite (Hpos i) by lia. rewrite (Hpos j Hj), Hbw. unfold slot.
    do 2 eexists. split; [reflexivity |]. split; [reflexivity |].
    now apply slot_step.
  - intros d Hd. unfold d3_scale.apply, b, d3_scale.scaleBand.
    cbn [d3_scale.domain]. rewrite (ordinal_domain_NoDup keys Hnd).
    apply index_of_None in Hd. now rewrite Hd.
Qed.

Lemma bands_fit_witness :
  let b := d3_scale.scaleBand 0 (ofZ 210) ["Male"; "Female"]%string (Q2Qc (2 # 5)) in
  (forall i, (i < 2)%nat ->
             exists x, d3_scale.apply b (nth i ["Male"; "Female"]%string ""%string)
                       = Some (Num x)
                       /\ 0 <= d3_scale.bandwidth b
                       /\ 0 <= x /\ x + d3_scale.bandwidth b <= ofZ 210)
  /\ (forall i j, (i < j)%nat -> (j < 2)%nat ->
                  exists x x',
                    d3_scale.apply b (nth i ["Male"; "Female"]%string ""%string)
                    = Some (Num x)
                    /\ d3_scale.apply b (nth j ["Male"; "Female"]%string ""%string)
                       = Some (Num x')
                    /\ x + d3_scale.bandwidth b <= x')
  /\ (forall d, ~ In d ["Male"; "Female"]%string -> d3_scale.apply b d = None).
Proof.
  apply (bands_fit 0 (ofZ 210) (Q2Qc (2 # 5)) ["Male"; "Female"]%string).
  - repeat constructor; simpl; intuition discriminate.
  - vm_compute; discriminate.
  - vm_compute; discriminate.
  - vm_compute; discriminate.
Defined.

(** ** Rows of the marital-status chart and of the box plots *)

Lemma sorted_nth_rel {A : Type} (R : A -> A -> Prop) (l : list A) (d : A)
  (i j : nat) :
  StronglySorted R l -> (i < j)%nat -> (j < length l)%nat ->
  R (nth i l d) (nth j l d).
Proof.
  intros Hs. revert i j. induction Hs as [| a l Hs IH Ha]; intros i j Hij Hj.
  - simpl in Hj. lia.
  - destruct j as [| j]; [lia |]. simpl in Hj. destruct i as [| i]; simpl.
    + rewrite Forall_forall in Ha. apply Ha, nth_In. lia.
    + apply IH; lia.
Qed.

(** The marital-status chart of App.jsx: height = 400 - 20 - 40,
    y = d3.scaleBand().range([height, 0])
          .domain(maritalRates.map(d => d.status)).padding(0.2). *)
Module MaritalStatusBars.
Definition height : Qc := ofZ 340.
Definition y (data : list Row) : d3_scale.Band :=
  d3_scale.scaleBand height 0
    (map name (MaritalStatusChart.maritalRates data)) (Q2Qc (1 # 5)).
End MaritalStatusBars.

Definition noRate : Rate := {| name := ""; rate := NaN; total := 0 |}.

(** X10. In the marital-status chart the bars are stacked by rate, the
    highest on top: of two bars the later one in the array has the rate
    that is at least as large and lies above the earlier one, without
    overlap and inside the plot. *)
Theorem marital_highest_on_top (data : list Row) (i j : nat) :
  (i < j)%nat -> (j < length (MaritalStatusChart.maritalRates data))%nat ->
  let rates := MaritalStatusChart.maritalRates data in
  let y := MaritalStatusBars.y data in
  exists qi qj yi yj : Qc,
    rate (nth i rates noRate) = Num qi /\ rate (nth j rates noRate) = Num qj
    /\ qi <= qj
    /\ d3_scale.apply y (name (nth i rates noRate)) = Some (Num yi)
    /\ d3_scale.apply y (name (nth j rates noRate)) = Some (Num yj)
    /\ 0 <= yj /\ yj + d3_scale.bandwidth y <= yi
    /\ yi + d3_scale.bandwidth y <= ofZ 340.
Proof.
  intros Hij Hj rates y. change (j < length rates)%nat in Hj.
  set (unsorted := rateBy data marital_status isHighIncome).
  assert (Permutation rates unsorted) as Hperm by apply js_sort_perm.
  assert (Forall finite_rate rates) as Hfin
      by (eapply Permutation_Forall; [symmetry; exact Hperm | apply rateBy_finite]).
  assert (StronglySorted (fun a b => before byRateAscending a b = true) rates)
    as Hs.
  { apply (js_sort_sorted byRateAscending finite_rate).
    - intros a b [x Hx] [z Hz].
      rewrite (before_byRateAscending a b x z), (before_byRateAscending b a z x)
        by auto.
      apply Qcle_total.
    - intros a b c [x Hx] [z Hz] [w Hw].
      rewrite (before_byRateAscending a b x z), (before_byRateAscending b c z w),
        (before_byRateAscending a c x w) by auto.
      apply Qcle_trans.
    - apply rateBy_finite. }
  rewrite Forall_forall in Hfin.
  destruct (Hfin (nth i rates noRate)) as [qi Hqi]; [apply nth_In; lia |].
  destruct (Hfin (nth j rates noRate)) as [qj Hqj]; [apply nth_In; lia |].
  pose proof (sorted_nth_rel _ rates noRate i j Hs Hij Hj) as Hle.
  simpl in Hle. rewrite (before_byRateAscending _ _ qi qj Hqi Hqj) in Hle.
  set (keys := map name rates).
  assert (NoDup keys) as Hnd.
  { eapply Permutation_NoDup;
      [symmetry; apply Permutation_map; exact Hperm |].
    unfold unsorted. rewrite rateBy_names. apply first_seen_NoDup. }
  assert (length keys = length rates) as Hlen by apply length_map.
  assert (keys <> []) as Hne.
  { intros E. rewrite E in Hlen. simpl in Hlen. lia. }
  assert (0 <= Q2Qc (1 # 5)) as Hp0 by (vm_compute; discriminate).
  assert (Q2Qc (1 # 5) <= 1) as Hp1 by (vm_compute; discriminate).
  destruct (band_positions MaritalStatusBars.height 0 (Q2Qc (1 # 5)) keys
              Hnd Hne Hp0 Hp1)
    as (s & st & Hbw & Hs0 & Hlo & Hhi & Hw0 & Hw1 & Hpos).
  change (qc_ltb 0 MaritalStatusBars.height) with true in Hlo, Hhi, Hpos.
  cbn iota in Hlo, Hhi.
  assert (y = d3_scale.scaleBand MaritalStatusBars.height 0 keys (Q2Qc (1 # 5)))
    as Hy by reflexivity.
  rewrite <- Hy in Hbw, Hpos. clearbody y.
  assert (forall k, nth k keys ""%string = name (nth k rates noRate)) as Hkey
      by (intros k; unfold keys; apply (map_nth name rates noRate k)).
  exists qi, qj.
  exists (st + s * ofnat (slot true (length keys) i)),
    (st + s * ofnat (slot true (length keys) j)).
  rewrite <- !Hkey, (Hpos i), (Hpos j), Hbw by lia.
  unfold slot.
  destruct (slot_bounds s st (s * (1 - Q2Qc (1 # 5))) MaritalStatusBars.height
              (length keys) (length keys - 1 - j) Hs0 Hw0) as [Hj0 _];
    [lia | exact Hhi |].
  destruct (slot_bounds s st (s * (1 - Q2Qc (1 # 5))) MaritalStatusBars.height
              (length keys) (length keys - 1 - i) Hs0 Hw0) as [_ Hi1];
    [lia | exact Hhi |].
  cbn [slot] in *. repeat split; auto.
  - apply Qcle_trans with st; [exact Hlo | exact Hj0].
  - apply slot_step; auto. lia.
Qed.

Definition maritalRow (status income : string) : Row :=
  {| age := NaN; hours_per_week := NaN; education_num := NaN;
     capital_gain := NaN; capital_loss := NaN;
     income := income; education := "N/A"; occupation := "N/A";
     sex := "N/A"; marital_status := status |}.

Lemma marital_highest_on_top_witness :
  let data := [maritalRow "Married-civ-spouse" ">50K";
               maritalRow "Never-married" "<=50K"] in
  let rates := MaritalStatusChart.maritalRates data in
  let y := MaritalStatusBars.y data in
  exists qi qj yi yj : Qc,
    rate (nth 0 rates noRate) = Num qi /\ rate (nth 1 rates noRate) = Num qj
    /\ qi <= qj
    /\ d3_scale.apply y (name (nth 0 rates noRate)) = Some (Num yi)
    /\ d3_scale.apply y (name (nth 1 rates noRate)) = Some (Num yj)
    /\ 0 <= yj /\ yj + d3_scale.bandwidth y <= yi
    /\ yi + d3_scale.bandwidth y <= ofZ 340.
Proof.
  intros data.
  apply (marital_highest_on_top data 0 1).
  - repeat constructor.
  - vm_compute. repeat constructor.
Defined.

(** The rows of the age box plot of App.jsx: height = 250 - 20 - 50,
    y = d3.scaleBand().range([height, 0]).domain(["<=50K", ">50K"]).padding(.1);
    the whisker of a group is drawn at [y(d.key) + y.bandwidth() / 2]. *)
Module AgeRows.
Definition height : Qc := ofZ 180.
Definition y : d3_scale.Band :=
  d3_scale.scaleBand height 0 ["<=50K"; ">50K"]%string (Q2Qc (1 # 10)).
Definition middle (key : string) : number :=
  num_add (to_number (d3_scale.apply y key))
          (Num (d3_scale.bandwidth y / Q2Qc 2)).
End AgeRows.

Lemma sumstatArray_keys (data : list Row) :
  map key (AgeChart.sumstatArray data) = first_seen (map income data).
Proof.
  unfold AgeChart.sumstatArray, entries, d3.rollup.
  rewrite group_buckets, !map_map. simpl. apply map_id.
Qed.

(** X11. The age box plot has rows for the two labels "<=50K" and
    ">50K" only, ">50K" above.  A summary is computed for every income
    value in the data, but a group with another income value gets no row:
    its position is undefined and the middle of its whisker is NaN. *)
Theorem age_rows_for_two_labels :
  (forall k, d3_scale.apply AgeRows.y k = None <->
             k <> "<=50K"%string /\ k <> ">50K"%string)
  /\ (exists ylo yhi : Qc,
         d3_scale.apply AgeRows.y "<=50K" = Some (Num ylo)
         /\ d3_scale.apply AgeRows.y ">50K" = Some (Num yhi)
         /\ 0 <= yhi /\ yhi + d3_scale.bandwidth AgeRows.y <= ylo
         /\ ylo + d3_scale.bandwidth AgeRows.y <= ofZ 180)
  /\ (forall (data : list Row) (r : Row),
         In r data ->
         income r <> "<=50K"%string -> income r <> ">50K"%string ->
         exists e, In e (AgeChart.sumstatArray data)
                   /\ key e = income r
                   /\ d3_scale.apply AgeRows.y (key e) = None
                   /\ AgeRows.middle (key e) = NaN).
Proof.
  assert (forall k, d3_scale.apply AgeRows.y k = None <->
                    k <> "<=50K"%string /\ k <> ">50K"%string) as Hnone.
  { intros k. unfold d3_scale.apply.
    change (d3_scale.domain AgeRows.y) with ["<=50K"; ">50K"]%string.
    cbn [d3_scale.index_of].
    destruct (String.eqb "<=50K" k) eqn:E1.
    { apply String.eqb_eq in E1. subst k.
      split; [vm_compute; discriminate | intros [H _]; congruence]. }
    destruct (String.eqb ">50K" k) eqn:E2.
    { apply String.eqb_eq in E2. subst k.
      split; [vm_compute; discriminate | intros [_ H]; congruence]. }
    apply String.eqb_neq in E1, E2. cbn [option_map].
    split; [intros _; split; congruence | reflexivity]. }
  split; [exact Hnone |]. split.
  - exists (Q2Qc (660 # 7)), (Q2Qc (60 # 7)).
    split; [vm_compute; do 2 f_equal; apply Qc_is_canon; reflexivity |].
    split; [vm_compute; do 2 f_equal; apply Qc_is_canon; reflexivity |].
    split; [vm_compute; discriminate |]. split; vm_compute; discriminate.
  - intros data r Hr H1 H2.
    assert (In (income r) (map key (AgeChart.sumstatArray data))) as Hk.
    { rewrite sumstatArray_keys. apply first_seen_In. now apply in_map. }
    apply in_map_iff in Hk. destruct Hk as (e & He & Hin).
    exists e. split; [exact Hin |]. split; [exact He |].
    assert (d3_scale.apply AgeRows.y (key e) = None) as Hn
        by (apply Hnone; rewrite He; auto).
    split; [exact Hn |]. unfold AgeRows.middle. now rewrite Hn.
Qed.

Lemma age_rows_for_two_labels_witness :
  exists e, In e (AgeChart.sumstatArray [ageRow (Num (ofZ 30)) "N/A"])
            /\ key e = income (ageRow (Num (ofZ 30)) "N/A")
            /\ d3_scale.apply AgeRows.y (key e) = None
            /\ AgeRows.middle (key e) = NaN.
Proof.
  apply (proj2 (proj2 age_rows_for_two_labels)).
  - left. reflexivity.
  - discriminate.
  - discriminate.
Defined.

(** ** The chat assistant

    Strings of the chat are sequences of ASCII characters: on them
    [toLowerCase] changes the letters A to Z only and [trim] removes the
    characters tab, line feed, vertical tab, form feed, carriage return
    and space.  What is proved about messages is stated for ASCII input
    ([ascii_only]). *)

Module Str.
Definition ascii_only (s : string) : bool :=
  forallb (fun c => Nat.ltb (Ascii.nat_of_ascii c) 128) (list_ascii_of_string s).

Definition lower_char (c : Ascii.ascii) : Ascii.ascii :=
  let n := Ascii.nat_of_ascii c in
  if Nat.leb 65 n && Nat.leb n 90 then Ascii.ascii_of_nat (n + 32) else c.

(** String.prototype.toLowerCase *)
Fixpoint toLowerCase (s : string) : string :=
  match s with
  | EmptyString => EmptyString
  | String c rest => String (lower_char c) (toLowerCase rest)
  end.

Definition is_space (c : Ascii.ascii) : bool :=
  let n := Ascii.nat_of_ascii c in
  Nat.eqb n 9 || Nat.eqb n 10 || Nat.eqb n 11 || Nat.eqb n 12
  || Nat.eqb n 13 || Nat.eqb n 32.

Fixpoint trimStart (s : string) : string :=
  match s with
  | EmptyString => EmptyString
  | String c rest => if is_space c then trimStart rest else s
  end.

Fixpoint trimEnd (s : string) : string :=
  match s with
  | EmptyString => EmptyString
  | String c rest =>
      match trimEnd rest with
      | EmptyString => if is_space c then EmptyString else String c EmptyString
      | rest' => String c rest'
      end
  end.

(** String.prototype.trim *)
Definition trim (s : string) : string := trimEnd (trimStart s).

(** String.prototype.includes *)
Fixpoint includes (s searchString : string) : bool :=
  String.prefix searchString s
  || match s with
     | EmptyString => false
     | String _ rest => includes rest searchString
     end.
End Str.

Module Chatbot.
Import Str.
Local Open Scope string_scope.

Definition helpText : string :=
  "You can ask me to explain charts like: 'What does the age chart show?', 'Tell me about capital gains', or ask for a 'key takeaway'.".
Definition ageText : string :=
  "The 'Income Distribution by Age' chart shows that the median age for individuals earning >$50K is higher than for those earning <=$50K. The box represents the middle 50% of people in each group.".
Definition educationText : string :=
  "The 'High Income Rate by Education Level' bar chart shows a strong trend: more education is highly correlated with a higher income rate.".
Definition sexText : string :=
  "The 'High Income Rate by Sex' chart shows the percentage of men and women earning over $50K. It reveals a significant disparity between the two groups in this dataset.".
Definition maritalText : string :=
  "This chart shows that individuals with a 'Married-civ-spouse' status have a substantially higher rate of earning >$50K compared to all other categories.".
Definition capitalGainText : string :=
  "This chart shows the distribution of capital gains. Notice that while most individuals in both income groups have zero gains, the >$50K group contains almost all of the individuals with significant capital gains, indicating a link between investment income and high earnings.".
Definition occupationText : string :=
  "This chart ranks jobs by the percentage of workers earning >$50K. 'Exec-managerial' and 'Prof-specialty' roles have the highest rates of high-income earners.".
Definition insightText : string :=
  "A key insight is that being married, having a higher education level, and working in a managerial or professional specialty are the strongest predictors of earning over $50K in this dataset.".
Definition fallbackText : string :=
  "I'm sorry, I'm not sure how to answer that. Type 'help' to see example questions.".

(** getBotResponse of App.jsx. *)
Definition getBotResponse (userInput : string) : string :=
  let lowerInput := trim (toLowerCase userInput) in
  if includes lowerInput "help" then helpText
  else if includes lowerInput "age" then ageText
  else if includes lowerInput "education" then educationText
  else if includes lowerInput "sex" then sexText
  else if includes lowerInput "marital status" then maritalText
  else if includes lowerInput "capital gain" then capitalGainText
  else if includes lowerInput "occupation" then occupationText
  else if includes lowerInput "takeaway" || includes lowerInput "insight"
       then insightText
  else fallbackText.

(** The chat window: the log, the input field and the replies that wait
    for their timer.
      handleSendMessage:
        if (!inputValue.trim()) return;
        setMessages(prev => [...prev, { sender: 'user', text: inputValue }]);
        const botMessage = { sender: 'bot', text: getBotResponse(inputValue) };
        setTimeout(() => setMessages(prev => [...prev, botMessage]), 500);
        setInputValue('');
    All timers have the same delay, so they fire in the order in which
    they were set. *)
Inductive Sender : Type := user | bot.

Record Message : Type := { sender : Sender; text : string }.

Record Chat : Type := {
  messages : list Message;
  inputValue : string;
  timers : list Message
}.

Definition initial : Chat :=
  {| messages :=
       [ {| sender := bot;
            text := "Hello! I'm your data guide. Ask me about the charts or for a key insight. Type 'help' to see what I can answer." |} ];
     inputValue := "";
     timers := [] |}.

(** onChange of the input field. *)
Definition setInputValue (value : string) (c : Chat) : Chat :=
  {| messages := messages c; inputValue := value; timers := timers c |}.

Definition handleSendMessage (c : Chat) : Chat :=
  match trim (inputValue c) with
  | EmptyString => c
  | _ =>
      {| messages := messages c ++ [ {| sender := user; text := inputValue c |} ];
         inputValue := "";
         timers := timers c
                   ++ [ {| sender := bot; text := getBotResponse (inputValue c) |} ] |}
  end.

(** The oldest timer fires. *)
Definition timeout (c : Chat) : Chat :=
  match timers c with
  | [] => c
  | botMessage :: rest =>
      {| messages := messages c ++ [botMessage];
         inputValue := inputValue c;
         timers := rest |}
  end.

Inductive Event : Type :=
| Type_ (value : string)
| Send
| Timeout.

Definition step (c : Chat) (e : Event) : Chat :=
  match e with
  | Type_ value => setInputValue value c
  | Send => handleSendMessage c
  | Timeout => timeout c
  end.

Definition run (events : list Event) : Chat := fold_left step events initial.
End Chatbot.

Example getBotResponse_example :
  Chatbot.getBotResponse "  What does the AGE chart show?  " = Chatbot.ageText.
Proof. reflexivity. Qed.

(** *** Facts on strings *)

Section StringFacts.
Import Str.
Local Open Scope string_scope.

(** A search string that neither starts nor ends with a blank. *)
Definition first_ok (kw : string) : bool :=
  match kw with
  | EmptyString => false
  | String a _ => negb (is_space a)
  end.

Fixpoint last_ok (kw : string) : bool :=
  match kw with
  | EmptyString => false
  | String a EmptyString => negb (is_space a)
  | String _ rest => last_ok rest
  end.

Definition solid (kw : string) : bool := first_ok kw && last_ok kw.

Lemma prefix_cons (a c : Ascii.ascii) (k r : string) :
  String.prefix (String a k) (String c r) =
  if Ascii.ascii_dec a c then String.prefix k r else false.
Proof. reflexivity. Qed.

Lemma prefix_empty (s : string) : String.prefix EmptyString s = true.
Proof. destruct s; reflexivity. Qed.

Lemma includes_trimStart (s kw : string) :
  first_ok kw = true -> includes (trimStart s) kw = includes s kw.
Proof.
  intros Hk. induction s as [| c r IH]; [reflexivity |].
  cbn [trimStart]. destruct (is_space c) eqn:Ec; [| reflexivity].
  rewrite IH. cbn [includes].
  destruct kw as [| a k]; [discriminate |].
  rewrite prefix_cons. destruct (Ascii.ascii_dec a c) as [-> | _]; [| reflexivity].
  simpl in Hk. rewrite Ec in Hk. discriminate.
Qed.

Lemma prefix_trimEnd (kw s : string) :
  last_ok kw = true -> String.prefix kw (trimEnd s) = String.prefix kw s.
Proof.
  revert s. induction kw as [| a k IH]; intros s Hk; [discriminate |].
  destruct s as [| c r]; [reflexivity |].
  cbn [trimEnd]. rewrite prefix_cons.
  destruct k as [| b k'].
  - simpl in Hk. apply negb_true_iff in Hk.
    destruct (Ascii.ascii_dec a c) as [<- | Hne].
    + rewrite Hk. destruct (trimEnd r); rewrite prefix_cons;
        destruct (Ascii.ascii_dec a a); rewrite ?prefix_empty; congruence.
    + destruct (trimEnd r); [destruct (is_space c) |];
        rewrite ?prefix_cons; try reflexivity;
        destruct (Ascii.ascii_dec a c); congruence.
  - assert (last_ok (String b k') = true) as Hk' by exact Hk.
    specialize (IH r Hk').
    destruct (trimEnd r) as [| c' r'] eqn:Er.
    + rewrite <- IH.
      destruct (is_space c); rewrite ?prefix_cons;
        destruct (Ascii.ascii_dec a c); reflexivity.
    + rewrite prefix_cons. now rewrite IH.
Qed.

Lemma includes_empty (kw : string) :
  last_ok kw = true -> includes EmptyString kw = false.
Proof. destruct kw; [discriminate | reflexivity]. Qed.

Lemma includes_trimEnd (s kw : string) :
  last_ok kw = true -> includes (trimEnd s) kw = includes s kw.
Proof.
  intros Hk. induction s as [| c r IH]; [reflexivity |].
  cbn [includes]. rewrite <- (prefix_trimEnd kw (String c r) Hk), <- IH.
  cbn [trimEnd]. destruct (trimEnd r) as [| c' r'] eqn:Er.
  - rewrite (includes_empty kw Hk).
    destruct (is_space c); cbn [includes];
      rewrite ?(includes_empty kw Hk), ?orb_false_r; try reflexivity.
    all: destruct kw; [discriminate |];
      change (String.prefix (String a kw) EmptyString) with false;
      rewrite ?orb_false_r; reflexivity.
  - reflexivity.
Qed.

Lemma includes_trim (s kw : string) :
  solid kw = true -> includes (trim s) kw = includes s kw.
Proof.
  unfold solid, trim. rewrite andb_true_iff. intros [H1 H2].
  now rewrite includes_trimEnd, includes_trimStart.
Qed.

Lemma prefix_append (kw s t : string) :
  String.prefix kw s = true -> String.prefix kw (s ++ t) = true.
Proof.
  revert s. induction kw as [| a k IH]; intros s H; [apply prefix_empty |].
  destruct s as [| c r]; [discriminate |].
  cbn [String.append]. rewrite prefix_cons in *.
  destruct (Ascii.ascii_dec a c); [now apply IH | discriminate].
Qed.

Lemma includes_append_r (s t kw : string) :
  includes s kw = true -> includes (s ++ t) kw = true.
Proof.
  induction s as [| c r IH]; intros H.
  - cbn [includes] in H. rewrite orb_false_r in H.
    destruct kw; [| discriminate].
    cbn [String.append]. destruct t; reflexivity.
  - cbn [includes] in H. apply orb_true_iff in H.
    cbn [String.append includes]. apply orb_true_iff.
    destruct H as [H | H]; [left | right; now apply IH].
    now apply (prefix_append kw (String c r) t).
Qed.

Lemma includes_append_l (s t kw : string) :
  includes t kw = true -> includes (s ++ t) kw = true.
Proof.
  intros H. induction s as [| c r IH]; [exact H |].
  cbn [String.append includes]. rewrite IH. apply orb_true_r.
Qed.

Lemma toLowerCase_append (s t : string) :
  toLowerCase (s ++ t) = toLowerCase s ++ toLowerCase t.
Proof.
  induction s as [| c r IH]; [reflexivity |].
  cbn [String.append toLowerCase]. now rewrite IH.
Qed.
End StringFacts.

(** *** The rules of the assistant as a table *)

Section ChatFacts.
Import Str.
Import Chatbot.
Local Open Scope string_scope.

(** The search strings of each rule, in the order of the tests, and the
    answers in the same order. *)
Definition keywords : list (list string) :=
  [["help"]; ["age"]; ["education"]; ["sex"]; ["marital status"];
   ["capital gain"]; ["occupation"]; ["takeaway"; "insight"]].

Definition answers : list string :=
  [helpText; ageText; educationText; sexText; maritalText; capitalGainText;
   occupationText; insightText].

(** The index of the first rule one of whose search strings occurs in
    [t]; the number of rules when none does. *)
Fixpoint matchIndex (rules : list (list string)) (t : string) : nat :=
  match rules with
  | [] => 0
  | kws :: rest => if existsb (includes t) kws then 0 else S (matchIndex rest t)
  end.

Lemma getBotResponse_index (userInput : string) :
  getBotResponse userInput =
  nth (matchIndex keywords (trim (toLowerCase userInput))) answers fallbackText.
Proof.
  unfold getBotResponse. cbn [keywords matchIndex existsb].
  set (t := trim (toLowerCase userInput)).
  rewrite !orb_false_r.
  repeat match goal with
         | |- context [if includes t ?k then _ else _] =>
             destruct (includes t k); try reflexivity
         end.
  destruct (includes t "takeaway"), (includes t "insight"); reflexivity.
Qed.

Lemma existsb_includes_trim (kws : list string) (t : string) :
  forallb solid kws = true ->
  existsb (includes (trim t)) kws = existsb (includes t) kws.
Proof.
  induction kws as [| k kws IH]; intros H; [reflexivity |].
  simpl in H. apply andb_true_iff in H. destruct H as [Hk Hks].
  cbn [existsb]. now rewrite includes_trim, IH.
Qed.

Lemma matchIndex_trim (rules : list (list string)) (t : string) :
  forallb (forallb solid) rules = true ->
  matchIndex rules (trim t) = matchIndex rules t.
Proof.
  induction rules as [| kws rules IH]; intros H; [reflexivity |].
  simpl in H. apply andb_true_iff in H. destruct H as [Hk Hks].
  cbn [matchIndex]. now rewrite existsb_includes_trim, IH.
Qed.

Lemma matchIndex_mono (rules : list (list string)) (t t' : string) :
  (forall kw, includes t kw = true -> includes t' kw = true) ->
  (matchIndex rules t' <= matchIndex rules t)%nat.
Proof.
  intros Hinc. induction rules as [| kws rules IH]; [reflexivity |].
  cbn [matchIndex].
  destruct (existsb (includes t') kws) eqn:E'; [lia |].
  destruct (existsb (includes t) kws) eqn:E; [| lia].
  exfalso. apply existsb_exists in E. destruct E as (kw & Hkw & Hin).
  assert (existsb (includes t') kws = true) as H; [| congruence].
  apply existsb_exists. exists kw. auto.
Qed.

(** X12. For an ASCII message the answer is that of the first rule, in
    the order help, age, education, sex, marital status, capital gain,
    occupation, takeaway or insight, one of whose search strings occurs
    in the lower-cased message, and the fallback when none occurs; the
    blanks that [trim] removes have no part in it. *)
Theorem answer_by_first_keyword (userInput : string) :
  ascii_only userInput = true ->
  getBotResponse userInput =
  nth (matchIndex keywords (toLowerCase userInput)) answers fallbackText.
Proof.
  intros _. rewrite getBotResponse_index. now rewrite matchIndex_trim.
Qed.

(** X13. Text put before or after a message can only move the answer
    to an earlier rule: the rule that answers [before ++ message ++ after]
    is not later than the one that answers [message].  So a message that
    is answered by the help rule keeps that answer, and a message with an
    answer never falls back to the apology. *)
Theorem more_text_earlier_rule (before message after : string) :
  ascii_only (before ++ message ++ after) = true ->
  let i := matchIndex keywords (toLowerCase (before ++ message ++ after)) in
  let j := matchIndex keywords (toLowerCase message) in
  (i <= j)%nat
  /\ getBotResponse (before ++ message ++ after) = nth i answers fallbackText
  /\ getBotResponse message = nth j answers fallbackText.
Proof.
  intros _ i j. split; [| split].
  - apply matchIndex_mono. intros kw H.
    rewrite !toLowerCase_append.
    now apply includes_append_l, includes_append_r.
  - unfold i. rewrite getBotResponse_index. now rewrite matchIndex_trim.
  - unfold j. rewrite getBotResponse_index. now rewrite matchIndex_trim.
Qed.
End ChatFacts.

Lemma answer_by_first_keyword_witness :
  Chatbot.getBotResponse "   Any INSIGHT on marital status?  " =
  nth (matchIndex keywords
         (Str.toLowerCase "   Any INSIGHT on marital status?  "))
      answers Chatbot.fallbackText.
Proof.
  apply (answer_by_first_keyword "   Any INSIGHT on marital status?  ").
  reflexivity.
Defined.

Lemma more_text_earlier_rule_witness :
  let i := matchIndex keywords
             (Str.toLowerCase ("I need help: " ++ "occupation" ++ " please")) in
  let j := matchIndex keywords (Str.toLowerCase "occupation") in
  (i <= j)%nat
  /\ Chatbot.getBotResponse ("I need help: " ++ "occupation" ++ " please")
     = nth i answers Chatbot.fallbackText
  /\ Chatbot.getBotResponse "occupation" = nth j answers Chatbot.fallbackText.
Proof.
  apply (more_text_earlier_rule "I need help: " "occupation" " please").
  reflexivity.
Defined.

(** *** The chat log *)

Section ChatLog.
Import Str.
Import Chatbot.

Definition is_user (m : Message) : bool :=
  match sender m with user => true | bot => false end.
Definition is_bot (m : Message) : bool := negb (is_user m).

Definition questions (c : Chat) : list string :=
  map text (filter is_user (messages c)).
Definition replies (c : Chat) : list string :=
  map text (filter is_bot (messages c)).

(** What every reachable state of the chat satisfies. *)
Record ChatInv (c : Chat) : Prop := {
  inv_replies :
    replies c ++ map text (timers c)
    = text (hd {| sender := bot; text := ""%string |} (messages initial))
      :: map getBotResponse (questions c);
  inv_timers : Forall (fun m => is_bot m = true) (timers c);
  inv_nonblank : Forall (fun q => trim q <> ""%string) (questions c);
  inv_order :
    forall n, (length (filter is_bot (firstn n (messages c)))
               <= 1 + length (filter is_user (firstn n (messages c))))%nat
}.

Lemma ChatInv_initial : ChatInv initial.
Proof.
  split.
  - reflexivity.
  - constructor.
  - constructor.
  - intros [| [| n]]; simpl; lia.
Qed.

Lemma firstn_snoc_cases {A : Type} (l : list A) (x : A) (n : nat) :
  firstn n (l ++ [x]) = firstn n l \/ firstn n (l ++ [x]) = l ++ [x].
Proof.
  destruct (Nat.le_gt_cases n (length l)) as [H | H].
  - left. rewrite firstn_app.
    replace (n - length l)%nat with 0%nat by lia. simpl. apply app_nil_r.
  - right. apply firstn_all2. rewrite length_app. simpl. lia.
Qed.

Lemma replies_length (c : Chat) :
  ChatInv c ->
  (length (filter is_bot (messages c)) + length (timers c)
   = 1 + length (filter is_user (messages c)))%nat.
Proof.
  intros [H _ _ _]. apply (f_equal (@length string)) in H.
  unfold replies, questions in H.
  rewrite length_app, !length_map in H. simpl in H.
  rewrite !length_map in H. exact H.
Qed.

Lemma ChatInv_step (c : Chat) (e : Event) : ChatInv c -> ChatInv (step c e).
Proof.
  intros Hc. pose proof (replies_length c Hc) as Hlen.
  destruct Hc as [Hr Ht Hn Ho]. destruct e as [value | |]; simpl.
  - split; auto.
  - unfold handleSendMessage. destruct (trim (inputValue c)) eqn:E.
    + split; auto.
    + assert (trim (inputValue c) <> ""%string) as Hnb by (rewrite E; discriminate).
      split; unfold replies, questions in *; cbn [messages timers].
      * rewrite !filter_app, !map_app. cbn. rewrite app_nil_r, app_assoc, Hr.
        reflexivity.
      * apply Forall_app. split; [exact Ht | repeat constructor].
      * rewrite filter_app, map_app. apply Forall_app. split; [exact Hn |].
        cbn. repeat constructor. exact Hnb.
      * intros n. destruct (firstn_snoc_cases (messages c)
                              {| sender := user; text := inputValue c |} n)
          as [-> | ->]; [apply Ho |].
        rewrite !filter_app, !length_app. cbn. lia.
  - unfold timeout. destruct (timers c) as [| m rest] eqn:E.
    + split; rewrite ?E; auto.
    + inversion Ht as [| ? ? Hm Hrest]; subst.
      assert (is_user m = false) as Hu by (apply negb_true_iff; exact Hm).
      split; unfold replies, questions in *; cbn [messages timers].
      * rewrite !filter_app, !map_app. cbn. rewrite Hm, Hu. cbn.
        rewrite app_nil_r, <- app_assoc. exact Hr.
      * exact Hrest.
      * rewrite filter_app. cbn. rewrite Hu, app_nil_r. exact Hn.
      * intros n. destruct (firstn_snoc_cases (messages c) m n)
          as [-> | ->]; [apply Ho |].
        rewrite !filter_app, !length_app. cbn. rewrite Hm, Hu. cbn.
        simpl in Hlen. lia.
Qed.

Lemma ChatInv_run (events : list Event) : ChatInv (run events).
Proof.
  unfold run. induction events as [| e events IH] using rev_ind.
  - apply ChatInv_initial.
  - rewrite fold_left_app. simpl. now apply ChatInv_step.
Qed.

Definition ascii_event (e : Event) : bool :=
  match e with
  | Type_ value => ascii_only value
  | _ => true
  end.

(** X14. After any sequence of typing, sending and timers firing, with
    ASCII input: the replies shown and the replies still waiting are,
    in order, the greeting and the answers to the questions shown; no
    question is blank; at every point of the log there are no more
    replies than questions, the greeting apart; and sending twice in a
    row sends once. *)
Theorem chat_log_invariant (events : list Event) :
  forallb ascii_event events = true ->
  let c := run events in
  replies c ++ map text (timers c)
  = "Hello! I'm your data guide. Ask me about the charts or for a key insight. Type 'help' to see what I can answer."%string
    :: map getBotResponse (questions c)
  /\ Forall (fun q => trim q <> ""%string) (questions c)
  /\ (forall n, (length (filter is_bot (firstn n (messages c)))
                 <= 1 + length (filter is_user (firstn n (messages c))))%nat)
  /\ handleSendMessage (handleSendMessage c) = handleSendMessage c.
Proof.
  intros _ c. destruct (ChatInv_run events) as [Hr _ Hn Ho]. fold c in Hr, Hn, Ho.
  split; [exact Hr |]. split; [exact Hn |]. split; [exact Ho |].
  unfold handleSendMessage.
  destruct (trim (inputValue c)) eqn:E; [now rewrite E | reflexivity].
Qed.
End ChatLog.

Lemma chat_log_invariant_witness :
  let c := Chatbot.run [Chatbot.Type_ "help"; Chatbot.Send;
                        Chatbot.Type_ "  "; Chatbot.Send;
                        Chatbot.Type_ "age?"; Chatbot.Send; Chatbot.Timeout] in
  replies c ++ map Chatbot.text (Chatbot.timers c)
  = "Hello! I'm your data guide. Ask me about the charts or for a key insight. Type 'help' to see what I can answer."%string
    :: map Chatbot.getBotResponse (questions c)
  /\ Forall (fun q => Str.trim q <> ""%string) (questions c)
  /\ (forall n, (length (filter is_bot (firstn n (Chatbot.messages c)))
                 <= 1 + length (filter is_user (firstn n (Chatbot.messages c))))%nat)
  /\ Chatbot.handleSendMessage (Chatbot.handleSendMessage c)
     = Chatbot.handleSendMessage c.
Proof.
  apply (chat_log_invariant
           [Chatbot.Type_ "help"; Chatbot.Send;
            Chatbot.Type_ "  "; Chatbot.Send;
            Chatbot.Type_ "age?"; Chatbot.Send; Chatbot.Timeout]).
  reflexivity.
Defined.

(** ** Cleaning of the categorical columns *)

Module Cleaning.
Import Str.
Local Open Scope string_scope.
(** [d.income = d.income ? d.income.trim() : 'N/A'], and the same for
    education, occupation, sex and marital.status.  A cell is a string,
    or undefined when the table has no such column; the empty string is
    falsy. *)
Definition category (cell : option string) : string :=
  match cell with
  | None => "N/A"
  | Some EmptyString => "N/A"
  | Some s => trim s
  end.
End Cleaning.

Section CleaningFacts.
Import Str.
Local Open Scope string_scope.

Lemma trimStart_first (s : string) :
  trimStart s = "" \/ first_ok (trimStart s) = true.
Proof.
  induction s as [| c r IH]; [now left |].
  cbn [trimStart]. destruct (is_space c) eqn:E; [exact IH |].
  right. simpl. now rewrite E.
Qed.

Lemma trimEnd_last (s : string) :
  trimEnd s = "" \/ last_ok (trimEnd s) = true.
Proof.
  induction s as [| c r IH]; [now left |].
  cbn [trimEnd]. destruct (trimEnd r) as [| c' r'] eqn:E.
  - destruct (is_space c) eqn:Ec; [now left | right].
    simpl. now rewrite Ec.
  - right. destruct IH as [IH | IH]; [discriminate | exact IH].
Qed.

Lemma trimEnd_first (s : string) :
  first_ok s = true -> first_ok (trimEnd s) = true.
Proof.
  destruct s as [| c r]; [discriminate |]. intros H.
  cbn [trimEnd]. simpl in H. apply negb_true_iff in H.
  destruct (trimEnd r); [rewrite H |]; simpl; now rewrite H.
Qed.

Lemma trim_solid (s : string) : trim s = "" \/ solid (trim s) = true.
Proof.
  unfold trim. destruct (trimStart_first s) as [E | H].
  - left. now rewrite E.
  - right. pose proof (trimEnd_first _ H) as Hf.
    unfold solid. rewrite Hf.
    destruct (trimEnd_last (trimStart s)) as [E | Hl]; [| exact Hl].
    rewrite E in Hf. discriminate.
Qed.

Definition ascii_cell (cell : option string) : bool :=
  match cell with
  | Some s => ascii_only s
  | None => true
  end.

(** X15. A cleaned categorical value, for an ASCII cell: it is empty or
    starts and ends with a character that is not a blank; it is empty
    exactly for a cell that is not empty and holds only blanks, which
    therefore does not get the marker N/A; and the occupation chart
    keeps the row unless the cell, not empty, trims to nothing or to
    "?" -- a missing or empty cell is kept, as the occupation N/A. *)
Theorem category_clean (cell : option string) :
  ascii_cell cell = true ->
  (Cleaning.category cell = "" \/ solid (Cleaning.category cell) = true)
  /\ (Cleaning.category cell = "" <->
      exists s, cell = Some s /\ s <> "" /\ trim s = "")
  /\ (kept_occupation (Cleaning.category cell) <->
      ~ exists s, cell = Some s /\ s <> "" /\ (trim s = "" \/ trim s = "?")).
Proof.
  intros _. destruct cell as [[| c r] |].
  - split; [right; reflexivity |]. split.
    + split; [discriminate |]. intros (s & E & Hs & _). congruence.
    + split.
      * intros _ (s & E & Hs & _). congruence.
      * intros _. split; discriminate.
  - set (s := String c r). change (Cleaning.category (Some s)) with (trim s).
    assert (s <> "") as Hs by discriminate.
    split; [apply trim_solid |]. split.
    + split.
      * intros E. exists s. auto.
      * intros (s' & E & _ & Ht). inversion E; subst s'. exact Ht.
    + unfold kept_occupation. split.
      * intros [H1 H2] (s' & E & _ & Ht). inversion E; subst s'. tauto.
      * intros H. split; intros E; apply H; exists s; auto.
  - split; [right; reflexivity |]. split.
    + split; [discriminate |]. intros (s & E & _). discriminate.
    + split.
      * intros _ (s & E & _). discriminate.
      * intros _. split; discriminate.
Qed.
End CleaningFacts.

Lemma category_clean_witness :
  (Cleaning.category (Some " ? "%string) = ""%string
   \/ solid (Cleaning.category (Some " ? "%string)) = true)
  /\ (Cleaning.category (Some " ? "%string) = ""%string <->
      exists s, Some " ? "%string = Some s /\ s <> ""%string
                /\ Str.trim s = ""%string)
  /\ (kept_occupation (Cleaning.category (Some " ? "%string)) <->
      ~ exists s, Some " ? "%string = Some s /\ s <> ""%string
                  /\ (Str.trim s = ""%string \/ Str.trim s = "?"%string)).
Proof.
  apply (category_clean (Some " ? "%string)). reflexivity.
Defined.
